(** * PeriodicCheck: an adaptive-interval health monitor

    Shallow embedding of [src/PeriodicCheck.ts] and a verification of its
    state machine, history log, metrics, listener dispatch and timer
    handling.

    Modelling conventions.
    - JavaScript numbers used as counters, delays, minutes and timestamps
      are mathematical integers ([Z]): the code increments, subtracts,
      multiplies by constants and compares them.  [availability] is the
      exact quotient ([Q]).
    - The class instance is the record [PeriodicCheck]; everything the
      instance touches outside itself (the clock behind [Date.now()], the
      timers behind [setTimeout]/[clearTimeout], the calls made to
      listeners and to the probe) lives in the record [Host].
    - Methods are computations in a state-and-exception monad [M] over
      [World]: a JavaScript [throw] is the result [Throw], and the
      mutations done before it persist, as they do in JavaScript.
    - The object passed to the constructor has its two thresholds absent
      or given as numbers ([IntervalConfig]).  An object that holds
      [undefined] under a threshold ([ConfigObject], [numeric]) makes the
      class compare against [undefined]; that case is not modelled.
    - Listeners and the probe are caller code.  A listener is a name and
      what calling it does: return, or throw a value.  A listener does
      not call back into the monitor and does not write to the snapshot
      it is handed; so a public method is always called between two
      steps of the monitor, never in the middle of one.  The probe is a
      name; what it settles to is supplied by the environment when it
      settles.
    - The monitor lives on an event loop: between two of its steps any
      public method may be called, an armed timer may fire, and a probe
      in flight may settle ([Action], [step], [Reachable]).
    - [Date.now()] is read from an arbitrary oracle, the host's [clock]:
      the n-th read returns [clock n]. *)

From stdpp Require Import base decidable countable gmap list strings.
From Stdlib Require Import ZArith QArith Lia.

Open Scope Z_scope.

(** ** Data model *)

Inductive CheckStatus : Type :=
  | healthy
  | suspect
  | unhealthy
  | error.

Global Instance CheckStatus_eq_dec : EqDecision CheckStatus.
Proof. solve_decision. Defined.

Definition CheckStatus_code (s : CheckStatus) : nat :=
  match s with
  | healthy => 0
  | suspect => 1
  | unhealthy => 2
  | error => 3
  end%nat.

Definition CheckStatus_of_code (n : nat) : CheckStatus :=
  match n with
  | 0 => healthy
  | 1 => suspect
  | 2 => unhealthy
  | _ => error
  end%nat.

Lemma CheckStatus_code_inv (s : CheckStatus) :
  CheckStatus_of_code (CheckStatus_code s) = s.
Proof. by destruct s. Qed.

Global Instance CheckStatus_countable : Countable CheckStatus :=
  inj_countable' CheckStatus_code CheckStatus_of_code CheckStatus_code_inv.

(** [IntervalConfig]: the three delays are required, the two thresholds
    are optional properties.  [None] is a property the object does not
    have, [Some n] a property whose value is the number [n].  An object
    that has the property with the value [undefined] is not an
    [IntervalConfig] of this model; see [ConfigObject] and [numeric]
    below. *)
Record IntervalConfig : Type := mkIntervalConfig {
  cfg_healthy : Z;
  cfg_suspect : Z;
  cfg_unhealthy : Z;
  cfg_maxSuspectCount : option Z;
  cfg_minHealthyCount : option Z
}.

(** An optional property of the object a caller passes: the object does
    not have it, has it with the value [undefined] (which the type
    [maxSuspectCount?: number] allows), or has it with a number. *)
Inductive OptionalProperty : Type :=
  | Absent
  | Undefined
  | Given (n : Z).

(** The object a caller passes to the constructor. *)
Record ConfigObject : Type := mkConfigObject {
  obj_healthy : Z;
  obj_suspect : Z;
  obj_unhealthy : Z;
  obj_maxSuspectCount : OptionalProperty;
  obj_minHealthyCount : OptionalProperty
}.

(** [Required<IntervalConfig>], the type of the field [intervals]. *)
Record Intervals : Type := mkIntervals {
  i_healthy : Z;
  i_suspect : Z;
  i_unhealthy : Z;
  maxSuspectCount : Z;
  minHealthyCount : Z
}.

Definition DEFAULT_maxSuspectCount : Z := 3.
Definition DEFAULT_minHealthyCount : Z := 2.

(** An [Error] object: one the caller's code created, or one the monitor
    creates itself with [new Error(message)]. *)
Inductive ErrorObj : Type :=
  | CallerError (id : nat)
  | NewError (message : string).

(** A thrown or rejected value: JavaScript lets any value be thrown. *)
Inductive Thrown : Type :=
  | ThrownError (e : ErrorObj)
  | ThrownOther (v : nat).

Record Listener : Type := mkListener {
  l_name : nat;
  l_raises : option Thrown
}.

Definition CheckFunction : Type := nat.
Definition TimerId : Type := nat.

Record HistoryEntry : Type := mkEntry {
  h_status : CheckStatus;
  h_timestamp : Z
}.

Record Metrics : Type := mkMetrics {
  availability : Q;
  statusCounts : gmap CheckStatus Z;
  currentStreak : Z
}.

Record CheckEventData : Type := mkEventData {
  ev_status : CheckStatus;
  ev_history : list HistoryEntry;
  ev_metrics : Metrics
}.

(** The private fields of the class. *)
Record PeriodicCheck : Type := mkPeriodicCheck {
  intervals : Intervals;
  checkFn : option CheckFunction;
  currentStatus : CheckStatus;
  timer : option TimerId;
  suspectCount : Z;
  healthyCount : Z;
  listeners : gmap CheckStatus (list Listener);
  history : list HistoryEntry
}.

(** What the host observes, in order. *)
Inductive Event : Type :=
  | StatusCall (l : Listener) (data : CheckEventData)
  | ErrorCall (l : Listener) (e : ErrorObj)
  | TimerSet (t : TimerId) (delay : Z)
  | TimerCleared (t : TimerId)
  | ProbeCall (fn : CheckFunction).

Record Host : Type := mkHost {
  clock : nat -> Z;               (* what the n-th Date.now() returns *)
  ticks : nat;                    (* reads of Date.now() so far *)
  nextTimer : TimerId;            (* next fresh timer handle *)
  pending : list (TimerId * Z);   (* armed timers with their delays *)
  inflight : nat;                 (* probes awaiting their result *)
  log : list Event                (* oldest first *)
}.

Record World : Type := mkWorld {
  this : PeriodicCheck;
  host : Host
}.

(** ** The monad *)

Inductive Result (A : Type) : Type :=
  | Ok (a : A)
  | Throw (v : Thrown).
Arguments Ok {A} a.
Arguments Throw {A} v.

Definition M (A : Type) : Type := World -> Result A * World.

Definition ret {A} (a : A) : M A := fun w => (Ok a, w).

Definition bind {A B} (m : M A) (k : A -> M B) : M B :=
  fun w =>
    match m w with
    | (Ok a, w') => k a w'
    | (Throw v, w') => (Throw v, w')
    end.

Definition throw {A} (v : Thrown) : M A := fun w => (Throw v, w).

Definition tryCatch {A} (body : M A) (handler : Thrown -> M A) : M A :=
  fun w =>
    match body w with
    | (Ok a, w') => (Ok a, w')
    | (Throw v, w') => handler v w'
    end.

Notation "'let*' x ':=' m 'in' k" := (bind m (fun x => k))
  (at level 10, x name, m at level 200, k at level 200,
   format "'[v' 'let*'  x  ':='  m  'in' '/' k ']'").
Notation "m >> k" := (bind m (fun _ => k))
  (at level 100, k at level 200, right associativity).

Definition exec {A} (m : M A) (w : World) : World := snd (m w).
Definition outcome {A} (m : M A) (w : World) : Result A := fst (m w).

Definition get {A} (f : PeriodicCheck -> A) : M A :=
  fun w => (Ok (f (this w)), w).

Definition modify (f : PeriodicCheck -> PeriodicCheck) : M unit :=
  fun w => (Ok tt, mkWorld (f (this w)) (host w)).

Definition when (b : bool) (m : M unit) : M unit :=
  if b then m else ret tt.

Fixpoint forEach {A} (f : A -> M unit) (l : list A) : M unit :=
  match l with
  | [] => ret tt
  | x :: rest => f x >> forEach f rest
  end.

(** ** Field assignments *)

Definition set_checkFn (v : option CheckFunction) (p : PeriodicCheck) :=
  mkPeriodicCheck (intervals p) v (currentStatus p) (timer p)
    (suspectCount p) (healthyCount p) (listeners p) (history p).

Definition set_currentStatus (v : CheckStatus) (p : PeriodicCheck) :=
  mkPeriodicCheck (intervals p) (checkFn p) v (timer p)
    (suspectCount p) (healthyCount p) (listeners p) (history p).

Definition set_timer (v : option TimerId) (p : PeriodicCheck) :=
  mkPeriodicCheck (intervals p) (checkFn p) (currentStatus p) v
    (suspectCount p) (healthyCount p) (listeners p) (history p).

Definition set_suspectCount (v : Z) (p : PeriodicCheck) :=
  mkPeriodicCheck (intervals p) (checkFn p) (currentStatus p) (timer p)
    v (healthyCount p) (listeners p) (history p).

Definition set_healthyCount (v : Z) (p : PeriodicCheck) :=
  mkPeriodicCheck (intervals p) (checkFn p) (currentStatus p) (timer p)
    (suspectCount p) v (listeners p) (history p).

Definition set_listeners (v : gmap CheckStatus (list Listener))
    (p : PeriodicCheck) :=
  mkPeriodicCheck (intervals p) (checkFn p) (currentStatus p) (timer p)
    (suspectCount p) (healthyCount p) v (history p).

Definition set_history (v : list HistoryEntry) (p : PeriodicCheck) :=
  mkPeriodicCheck (intervals p) (checkFn p) (currentStatus p) (timer p)
    (suspectCount p) (healthyCount p) (listeners p) v.

Definition set_ticks (v : nat) (h : Host) :=
  mkHost (clock h) v (nextTimer h) (pending h) (inflight h) (log h).

Definition set_inflight (v : nat) (h : Host) :=
  mkHost (clock h) (ticks h) (nextTimer h) (pending h) v (log h).

Definition emit (e : Event) (h : Host) :=
  mkHost (clock h) (ticks h) (nextTimer h) (pending h) (inflight h)
    (log h ++ [e]).

Definition arm (t : TimerId) (delay : Z) (h : Host) :=
  mkHost (clock h) (ticks h) (S t) (pending h ++ [(t, delay)]) (inflight h)
    (log h).

Definition disarm (t : TimerId) (h : Host) :=
  mkHost (clock h) (ticks h) (nextTimer h)
    (filter (fun p : TimerId * Z => p.1 <> t) (pending h))
    (inflight h) (log h).

Definition onHost (f : Host -> Host) : M unit :=
  fun w => (Ok tt, mkWorld (this w) (f (host w))).

(** ** The host: clock, timers, caller code *)

(** [Date.now()] *)
Definition Date_now : M Z :=
  fun w =>
    (Ok (clock (host w) (ticks (host w))),
     mkWorld (this w) (set_ticks (S (ticks (host w))) (host w))).

(** [setTimeout(() => this.runCheck(), delay)]: the callback is always the
    same, so an armed timer is its handle and its delay. *)
Definition setTimeout (delay : Z) : M TimerId :=
  fun w =>
    let t := nextTimer (host w) in
    (Ok t, mkWorld (this w) (emit (TimerSet t delay) (arm t delay (host w)))).

(** [clearTimeout(t)]: disarms [t] when it is armed, does nothing to the
    timers otherwise. *)
Definition clearTimeout (t : TimerId) : M unit :=
  onHost (fun h => emit (TimerCleared t) (disarm t h)).

Definition raisedBy (l : Listener) : M unit :=
  match l_raises l with
  | None => ret tt
  | Some v => throw v
  end.

(** [(listener as StatusListener)(eventData)] *)
Definition callStatusListener (data : CheckEventData) (l : Listener)
    : M unit :=
  onHost (emit (StatusCall l data)) >> raisedBy l.

(** [(listener as ErrorListener)(error)] *)
Definition callErrorListener (e : ErrorObj) (l : Listener) : M unit :=
  onHost (emit (ErrorCall l e)) >> raisedBy l.

(** [this.checkFn()]: the probe starts and the caller awaits it. *)
Definition callProbe (fn : CheckFunction) : M unit :=
  onHost (fun h => emit (ProbeCall fn) (set_inflight (S (inflight h)) h)).

(** ** The class *)

(** One key of [{ ...DEFAULT_OPTIONAL_INTERVAL_CONFIG, ...intervals }]:
    the spread copies every property the object has, also one whose value
    is [undefined], over the default.  [None] is the value [undefined]. *)
Definition spread (dflt : Z) (o : OptionalProperty) : option Z :=
  match o with
  | Absent => Some dflt
  | Undefined => None
  | Given n => Some n
  end.

(** The objects this development covers: those whose thresholds are
    absent or numbers, as an [IntervalConfig].  With a threshold that is
    [undefined] the spread leaves [undefined] in [this.intervals], every
    [>=] against it is false, and the class behaves differently; that
    case is outside the model. *)
Definition numeric (o : ConfigObject) : option IntervalConfig :=
  let property (p : OptionalProperty) : option (option Z) :=
    match p with
    | Absent => Some None
    | Undefined => None
    | Given n => Some (Some n)
    end in
  match property (obj_maxSuspectCount o), property (obj_minHealthyCount o) with
  | Some max, Some min =>
      Some (mkIntervalConfig (obj_healthy o) (obj_suspect o) (obj_unhealthy o)
              max min)
  | _, _ => None
  end.

(** [constructor(intervals)]: the defaults, overridden by the properties
    the caller gave, for an object whose thresholds are absent or
    numbers. *)
Definition constructor (cfg : IntervalConfig) : PeriodicCheck :=
  mkPeriodicCheck
    (mkIntervals (cfg_healthy cfg) (cfg_suspect cfg) (cfg_unhealthy cfg)
       (default DEFAULT_maxSuspectCount (cfg_maxSuspectCount cfg))
       (default DEFAULT_minHealthyCount (cfg_minHealthyCount cfg)))
    None healthy None 0 0 ∅ [].

Definition transitionTo (status : CheckStatus) : M unit :=
  modify (set_currentStatus status).

Definition getRecentHistory (minutes : Z) : M (list HistoryEntry) :=
  let* now := Date_now in
  let cutoff := now - minutes * 60 * 1000 in
  let* h := get history in
  ret (filter (fun entry => cutoff <= h_timestamp entry) h).

(** The loop of [getCurrentStreak]: [n] is [i + 1], the entries below
    index [n] are still to be scanned. *)
Fixpoint streakLoop (h : list HistoryEntry) (current : CheckStatus)
    (n : nat) (streak : Z) : Z :=
  match n with
  | O => streak
  | S i =>
      match h !! i with
      | Some entry =>
          if decide (h_status entry = current)
          then streakLoop h current i (streak + 1)
          else streak
      | None => streak
      end
  end.

Definition getCurrentStreak : M Z :=
  let* h := get history in
  if decide (length h = 0%nat) then ret 0
  else
    match h !! (length h - 1)%nat with
    | Some last => ret (streakLoop h (h_status last) (length h - 1)%nat 1)
    | None => ret 0
    end.

(** The callback of [recentHistory.reduce]. *)
Definition countEntry (acc : gmap CheckStatus Z) (entry : HistoryEntry)
    : gmap CheckStatus Z :=
  <[h_status entry := default 0 (acc !! h_status entry) + 1]> acc.

Definition emptyWindowCounts : gmap CheckStatus Z :=
  <[healthy := 1]> (<[suspect := 0]> (<[unhealthy := 0]> (<[error := 0]> ∅))).

Definition getMetrics : M Metrics :=
  let* recentHistory := getRecentHistory 60 in
  let total := length recentHistory in
  if decide (total = 0%nat) then
    ret (mkMetrics 1%Q emptyWindowCounts 1)
  else
    let counts := foldl countEntry ∅ recentHistory in
    let* streak := getCurrentStreak in
    ret (mkMetrics
           (Qdiv (inject_Z (default 0 (counts !! healthy)))
                 (inject_Z (Z.of_nat total)))
           counts streak).

Definition createEventData : M CheckEventData :=
  let* status := get currentStatus in
  let* recent := getRecentHistory 60 in
  let* metrics := getMetrics in
  ret (mkEventData status recent metrics).

Definition notifyListeners : M unit :=
  let* eventData := createEventData in
  let* st := get currentStatus in
  let* ls := get (fun p => default [] (listeners p !! st)) in
  forEach (callStatusListener eventData) ls.

(** [updateStatus], lines 80-103: the counters and the transition. *)
Definition countResult (isHealthy : bool) : M unit :=
  if isHealthy then
    (let* hc := get healthyCount in modify (set_healthyCount (hc + 1))) >>
    modify (set_suspectCount 0) >>
    let* hc := get healthyCount in
    let* cfg := get intervals in
    when (bool_decide (minHealthyCount cfg <= hc)) (transitionTo healthy)
  else
    modify (set_healthyCount 0) >>
    let* st := get currentStatus in
    if decide (st = healthy) then
      (let* sc := get suspectCount in modify (set_suspectCount (sc + 1))) >>
      let* sc := get suspectCount in
      let* cfg := get intervals in
      if decide (maxSuspectCount cfg <= sc)
      then transitionTo unhealthy
      else transitionTo suspect
    else if decide (st = suspect) then
      (let* sc := get suspectCount in modify (set_suspectCount (sc + 1))) >>
      let* sc := get suspectCount in
      let* cfg := get intervals in
      when (bool_decide (maxSuspectCount cfg <= sc)) (transitionTo unhealthy)
    else ret tt.

(** [updateStatus], lines 105-112: the history entry and the cap. *)
Definition recordStatus : M unit :=
  let* st := get currentStatus in
  let* now := Date_now in
  modify (fun p => set_history (history p ++ [mkEntry st now]) p) >>
  let* h := get history in
  when (bool_decide (100 < length h)%nat)
    (modify (fun p => set_history (drop 1 (history p)) p)).

Definition updateStatus (isHealthy : bool) : M unit :=
  let* prevStatus := get currentStatus in
  countResult isHealthy >>
  recordStatus >>
  let* cur := get currentStatus in
  when (bool_decide (prevStatus <> cur)) notifyListeners.

(** [this.intervals[intervalStatus]].  The object has no property
    [error]; [scheduleNext] never looks it up. *)
Definition intervalOf (cfg : Intervals) (status : CheckStatus) : Z :=
  match status with
  | healthy => i_healthy cfg
  | suspect => i_suspect cfg
  | unhealthy => i_unhealthy cfg
  | error => 0
  end.

(** The status [scheduleNext] looks the delay up with. *)
Definition intervalStatus (current : CheckStatus) : CheckStatus :=
  if decide (current = error) then unhealthy else current.

Definition scheduleNext : M unit :=
  let* t := get timer in
  match t with
  | Some id => clearTimeout id
  | None => ret tt
  end >>
  let* st := get currentStatus in
  let* cfg := get intervals in
  let interval := intervalOf cfg (intervalStatus st) in
  let* id := setTimeout interval in
  modify (set_timer (Some id)).

Definition handleError (e : ErrorObj) : M unit :=
  updateStatus false >>
  scheduleNext >>
  let* errorListeners := get (fun p => default [] (listeners p !! error)) in
  forEach (callErrorListener e) errorListeners.

Definition on (status : CheckStatus) (listener : Listener) : M unit :=
  let* has := get (fun p => bool_decide (is_Some (listeners p !! status))) in
  when (negb has)
    (modify (fun p => set_listeners (<[status := []]> (listeners p)) p)) >>
  modify (fun p =>
    set_listeners
      (<[status := default [] (listeners p !! status) ++ [listener]]>
         (listeners p)) p).

Definition check (fn : CheckFunction) : M unit :=
  modify (set_checkFn (Some fn)) >>
  notifyListeners >>
  scheduleNext.

Definition stop : M unit :=
  let* t := get timer in
  match t with
  | Some id => clearTimeout id >> modify (set_timer None)
  | None => ret tt
  end.

(** [error instanceof Error ? error : new Error("Unknown error")] *)
Definition asError (v : Thrown) : ErrorObj :=
  match v with
  | ThrownError e => e
  | ThrownOther _ => NewError "Unknown error"
  end.

(** What the awaited probe settles to. *)
Inductive ProbeOutcome : Type :=
  | Resolved (isHealthy : bool)
  | Rejected (v : Thrown).

(** [runCheck] up to its [await]: it runs when the timer fires. *)
Definition runCheck_call : M unit :=
  tryCatch
    (let* fn := get checkFn in
     match fn with
     | None => throw (ThrownError (NewError "Check function is not defined"))
     | Some f => callProbe f
     end)
    (fun v => handleError (asError v)).

(** [runCheck] from its [await] on: it runs when the probe has settled. *)
Definition runCheck_resume (o : ProbeOutcome) : M unit :=
  tryCatch
    (match o with
     | Resolved isHealthy => updateStatus isHealthy >> scheduleNext
     | Rejected v => throw v
     end)
    (fun v => handleError (asError v)).


(** ** The event loop *)

(** What can happen to a monitor: a call of a public method, the armed
    timer firing, or an awaited probe settling. *)
Inductive Action : Type :=
  | Check (fn : CheckFunction)
  | On (status : CheckStatus) (listener : Listener)
  | Stop
  | GetRecentHistory (minutes : Z)
  | GetMetrics
  | TimerFires (t : TimerId)
  | ProbeSettles (o : ProbeOutcome).

Definition enabled (a : Action) (w : World) : bool :=
  match a with
  | TimerFires t => bool_decide (t ∈ (pending (host w)).*1)
  | ProbeSettles _ => bool_decide (0 < inflight (host w))%nat
  | _ => true
  end.

(** A timer that fires is no longer armed; then its callback runs. *)
Definition fire (t : TimerId) : M unit :=
  onHost (disarm t) >> runCheck_call.

Definition settle (o : ProbeOutcome) : M unit :=
  onHost (fun h => set_inflight (pred (inflight h)) h) >> runCheck_resume o.

Definition perform (a : Action) : M unit :=
  match a with
  | Check fn => check fn
  | On status listener => on status listener
  | Stop => stop
  | GetRecentHistory minutes => getRecentHistory minutes >> ret tt
  | GetMetrics => getMetrics >> ret tt
  | TimerFires t => fire t
  | ProbeSettles o => settle o
  end.

(** An exception that escapes an action (to the caller of a public
    method, or as the rejection of [runCheck]'s promise) leaves the world
    as it was when it was thrown. *)
Definition step (a : Action) (w : World) : option World :=
  if enabled a w then Some (exec (perform a) w) else None.

Fixpoint run (actions : list Action) (w : World) : option World :=
  match actions with
  | [] => Some w
  | a :: rest =>
      match step a w with
      | Some w' => run rest w'
      | None => None
      end
  end.

(** A host on which nothing has happened yet. *)
Definition boot (c : nat -> Z) : Host := mkHost c 0%nat 1%nat [] 0%nat [].

(** [new PeriodicCheck(cfg)] *)
Definition new (c : nat -> Z) (cfg : IntervalConfig) : World :=
  mkWorld (constructor cfg) (boot c).

Inductive Reachable (c : nat -> Z) (cfg : IntervalConfig) : World -> Prop :=
  | Reachable_new : Reachable c cfg (new c cfg)
  | Reachable_step w a w' :
      Reachable c cfg w -> step a w = Some w' -> Reachable c cfg w'.

(** ** Sample data *)

Definition sampleClock (n : nat) : Z := 1000 * Z.of_nat n.

Definition sampleConfig : IntervalConfig :=
  mkIntervalConfig 1000 500 2000 None None.


Definition strictObject : ConfigObject :=
  mkConfigObject 1000 500 2000 (Given 2) Absent.

(** A clock that jumps ahead by more than an hour at its fifth read. *)
Definition lateClock (n : nat) : Z :=
  if (n <? 4)%nat then 1000 * Z.of_nat n else 4000000.

Definition quiet (n : nat) : Listener := mkListener n None.

(** A monitor with a listener under suspect and one under error, started
    with [check], whose timer has fired: the probe is in flight. *)
Definition probing : list Action :=
  [On suspect (quiet 1); On error (quiet 2); Check 7%nat; TimerFires 1%nat].

(** The world after the actions [actions] on a new sample monitor, and
    the new monitor itself if they cannot happen. *)
Definition after (actions : list Action) : World :=
  default (new sampleClock sampleConfig)
    (run actions (new sampleClock sampleConfig)).

(** The probe cycles [first], ..., [first + n - 1], each settling to the
    corresponding result: the timer armed by cycle [i - 1] has handle
    [i]. *)
Fixpoint cycles (first : nat) (results : list bool) : list Action :=
  match results with
  | [] => []
  | r :: rest =>
      TimerFires first :: ProbeSettles (Resolved r) :: cycles (S first) rest
  end.

(** A monitor that three failures have made unhealthy, to which a
    listener that throws is then added under unhealthy and a quiet one
    under error, and whose timer has fired again: the probe is in
    flight. *)
Definition failing : list Action :=
  Check 7%nat :: cycles 1 [false; false; false] ++
  [On unhealthy (mkListener 9 (Some (ThrownOther 0))); On error (quiet 2);
   TimerFires 4%nat].

(** ** Notions the properties are stated with *)

(** The longest prefix of [l] whose elements all satisfy [f]. *)
Fixpoint leading {A} (f : A -> bool) (l : list A) : list A :=
  match l with
  | [] => []
  | x :: rest => if f x then x :: leading f rest else []
  end.

Definition hasStatus (st : CheckStatus) (entry : HistoryEntry) : bool :=
  bool_decide (h_status entry = st).

(** The streak as the specification words it: the number of consecutive
    most recent entries sharing the latest entry's status, 0 for an empty
    history. *)
Definition trailingStreak (h : list HistoryEntry) : Z :=
  match reverse h with
  | [] => 0
  | latest :: older =>
      1 + Z.of_nat (length (leading (hasStatus (h_status latest)) older))
  end.

(** How often a status occurs in a list of entries. *)
Definition occurrences (st : CheckStatus) (l : list HistoryEntry) : Z :=
  Z.of_nat (length (filter (fun entry => h_status entry = st) l)).

(** The entries of [h] not older than [minutes] at time [now]. *)
Definition window (now minutes : Z) (h : list HistoryEntry)
    : list HistoryEntry :=
  filter (fun entry => now - minutes * 60 * 1000 <= h_timestamp entry) h.

(** The next read of [Date.now()]. *)
Definition nextNow (w : World) : Z := clock (host w) (ticks (host w)).

(** The world after one read of the clock. *)
Definition tick (w : World) : World :=
  mkWorld (this w) (set_ticks (S (ticks (host w))) (host w)).

(** The listeners registered under a key, in registration order. *)
Definition registered (st : CheckStatus) (w : World) : list Listener :=
  default [] (listeners (this w) !! st).

Definition returns (l : Listener) : Prop := l_raises l = None.

(** The host after it has observed the events [es]. *)
Definition emits (es : list Event) (h : Host) : Host :=
  mkHost (clock h) (ticks h) (nextTimer h) (pending h) (inflight h)
    (log h ++ es).

(** The listeners [forEach] gets to call: all of them up to and including
    the first one that throws. *)
Fixpoint called (ls : list Listener) : list Listener :=
  match ls with
  | [] => []
  | l :: rest =>
      match l_raises l with
      | None => l :: called rest
      | Some _ => [l]
      end
  end.

(** The world once [updateStatus] has counted the result and recorded the
    history entry, before it notifies anyone. *)
Definition settled (isHealthy : bool) (w : World) : World :=
  exec (countResult isHealthy >> recordStatus) w.

(** The status listeners [updateStatus] calls, in order, as long as none
    throws: those registered under the status the update leads to when
    that differs from the status before it, and none when the status
    stays. *)
Definition notified (isHealthy : bool) (w : World) : list Listener :=
  let st := currentStatus (this (settled isHealthy w)) in
  if decide (currentStatus (this w) <> st) then registered st w else [].

(** [n] successful probe results in a row. *)
Fixpoint successes (n : nat) (w : World) : World :=
  match n with
  | O => w
  | S k => exec (updateStatus true) (successes k w)
  end.

Definition isProbeCall (e : Event) : bool :=
  match e with
  | ProbeCall _ => true
  | _ => false
  end.

(** How many times the probe has been executed. *)
Definition probeCalls (w : World) : nat :=
  length (filter (fun e => isProbeCall e) (log (host w))).

Definition isCheck (a : Action) : bool :=
  match a with
  | Check _ => true
  | _ => false
  end.

(** The host after [scheduleNext]'s [clearTimeout], if it makes one. *)
Definition cleared (w : World) : Host :=
  match timer (this w) with
  | Some id => emit (TimerCleared id) (disarm id (host w))
  | None => host w
  end.

(** The delay [scheduleNext] arms the timer with. *)
Definition nextDelay (w : World) : Z :=
  intervalOf (intervals (this w)) (intervalStatus (currentStatus (this w))).

(** What holds of a monitor whatever has happened to it. *)
Record Consistent (w : World) : Prop := mkConsistent {
  status_known : currentStatus (this w) <> error;
  history_capped : (length (history (this w)) <= 100)%nat;
  healthy_counter :
    currentStatus (this w) = healthy -> suspectCount (this w) = 0;
  suspect_counter :
    currentStatus (this w) = suspect ->
    0 <= suspectCount (this w) < maxSuspectCount (intervals (this w));
  one_timer :
    pending (host w) = [] \/
    exists t d, pending (host w) = [(t, d)] /\ timer (this w) = Some t
}.

(** The calls of error listeners in the log: who was called, with what. *)
Definition errorCalls (w : World) : list (nat * ErrorObj) :=
  omap (fun e => match e with
                 | ErrorCall l err => Some (l_name l, err)
                 | _ => None
                 end) (log (host w)).

(** The calls of status listeners in the log: who was called, and the
    status in the snapshot. *)
Definition statusCalls (w : World) : list (nat * CheckStatus) :=
  omap (fun e => match e with
                 | StatusCall l data => Some (l_name l, ev_status data)
                 | _ => None
                 end) (log (host w)).

(** [n] failed probe results in a row. *)
Fixpoint failures (n : nat) (w : World) : World :=
  match n with
  | O => w
  | S k => exec (updateStatus false) (failures k w)
  end.

(** The calls [on(status, listener)] for the pairs of [rs], in order. *)
Definition registerAll (rs : list (CheckStatus * Listener)) (w : World)
    : World :=
  foldl (fun w' r => exec (on r.1 r.2) w') w rs.

(** The count [statusCounts] holds for a status, 0 for a missing key. *)
Definition countOf (m : Metrics) (st : CheckStatus) : Z :=
  default 0 (statusCounts m !! st).

Definition isListenerCall (e : Event) : bool :=
  match e with
  | StatusCall _ _ | ErrorCall _ _ => true
  | _ => false
  end.

(** The fields the state machine and the history are made of. *)
Definition core (p : PeriodicCheck)
    : CheckStatus * Z * Z * list HistoryEntry * Intervals :=
  (currentStatus p, suspectCount p, healthyCount p, history p, intervals p).

(** A change that is none of the state machine's business: the [core]
    and the listeners stay, the clock is only read, and what the host
    observes is no call of a listener. *)
Record Bookkeeping (w w' : World) : Prop := mkBookkeeping {
  bk_core : core (this w') = core (this w);
  bk_listeners : listeners (this w') = listeners (this w);
  bk_clock : clock (host w') = clock (host w);
  bk_ticks : (ticks (host w) <= ticks (host w'))%nat;
  bk_log :
    exists es,
      log (host w') = log (host w) ++ es /\
      Forall (fun e => isListenerCall e = false) es
}.

(** The moves every action of the event loop is made of. *)
Inductive Move : World -> World -> Prop :=
  | Move_bookkeeping w w' : Bookkeeping w w' -> Move w w'
  | Move_on w st l : Move w (exec (on st l) w)
  | Move_settled w b : Move w (settled b w)
  | Move_notify w : Move w (exec notifyListeners w)
  | Move_errors w e :
      Move w
        (mkWorld (this w)
           (emits (map (fun l => ErrorCall l e) (called (registered error w)))
              (host w))).

(** Entries in the order of their timestamps. *)
Definition chronological (h : list HistoryEntry) : Prop :=
  forall i j e1 e2,
    (i <= j)%nat -> h !! i = Some e1 -> h !! j = Some e2 ->
    h_timestamp e1 <= h_timestamp e2.

(** A clock that never goes backwards. *)
Definition monotone (c : nat -> Z) : Prop :=
  forall i j, (i <= j)%nat -> c i <= c j.

(** Whether every [check] among the actions is called at a moment when no
    probe is in flight ([None] if the actions cannot happen). *)
Fixpoint checksWhenIdle (actions : list Action) (w : World) : option bool :=
  match actions with
  | [] => Some true
  | a :: rest =>
      match step a w with
      | Some w' =>
          if isCheck a && negb (Nat.eqb (inflight (host w)) 0)
          then Some false
          else checksWhenIdle rest w'
      | None => None
      end
  end.

(** A call in the log went to a listener registered under the key the
    call is for. *)
Definition callKeyed (w : World) (e : Event) : Prop :=
  match e with
  | StatusCall l data =>
      ev_status data <> error /\ l ∈ registered (ev_status data) w
  | ErrorCall l _ => l ∈ registered error w
  | _ => True
  end.

(** ** The React binding [usePeriodicCheck]

    Of the hook, what its effect does to the monitor: the calls it makes
    when the component mounts, in the order of the source, and the call
    its cleanup makes.  [updateStates] (three state setters) and the
    error logger are listeners that return. *)

Definition updateStates : Listener := mkListener 0 None.
Definition logError : Listener := mkListener 1 None.

Definition mountEffect (checkFn : CheckFunction) : list Action :=
  [Check checkFn;
   On healthy updateStates; On suspect updateStates; On unhealthy updateStates;
   On error logError].

Definition cleanupEffect : list Action := [Stop].

(** * Properties *)

(** ** Evaluating computations *)

Lemma exec_ret {A} (a : A) w : exec (ret a) w = w.
Proof. reflexivity. Qed.

Lemma outcome_ret {A} (a : A) w : outcome (ret a) w = Ok a.
Proof. reflexivity. Qed.

Lemma exec_bind {A B} (m : M A) (k : A -> M B) w :
  exec (bind m k) w =
  match outcome m w with
  | Ok a => exec (k a) (exec m w)
  | Throw _ => exec m w
  end.
Proof. unfold exec, outcome, bind. by destruct (m w) as [[a|v] w']. Qed.

Lemma outcome_bind {A B} (m : M A) (k : A -> M B) w :
  outcome (bind m k) w =
  match outcome m w with
  | Ok a => outcome (k a) (exec m w)
  | Throw v => Throw v
  end.
Proof. unfold exec, outcome, bind. by destruct (m w) as [[a|v] w']. Qed.

Lemma exec_tryCatch {A} (m : M A) (h : Thrown -> M A) w :
  exec (tryCatch m h) w =
  match outcome m w with
  | Ok _ => exec m w
  | Throw v => exec (h v) (exec m w)
  end.
Proof. unfold exec, outcome, tryCatch. by destruct (m w) as [[a|v] w']. Qed.

Lemma outcome_tryCatch {A} (m : M A) (h : Thrown -> M A) w :
  outcome (tryCatch m h) w =
  match outcome m w with
  | Ok a => Ok a
  | Throw v => outcome (h v) (exec m w)
  end.
Proof. unfold exec, outcome, tryCatch. by destruct (m w) as [[a|v] w']. Qed.

Lemma exec_get {A} (f : PeriodicCheck -> A) w : exec (get f) w = w.
Proof. reflexivity. Qed.

Lemma outcome_get {A} (f : PeriodicCheck -> A) w :
  outcome (get f) w = Ok (f (this w)).
Proof. reflexivity. Qed.

Lemma exec_modify f w : exec (modify f) w = mkWorld (f (this w)) (host w).
Proof. reflexivity. Qed.

Lemma outcome_modify f w : outcome (modify f) w = Ok tt.
Proof. reflexivity. Qed.

Lemma exec_onHost f w : exec (onHost f) w = mkWorld (this w) (f (host w)).
Proof. reflexivity. Qed.

Lemma outcome_onHost f w : outcome (onHost f) w = Ok tt.
Proof. reflexivity. Qed.

Lemma exec_throw {A} v w : exec (@throw A v) w = w.
Proof. reflexivity. Qed.

Lemma outcome_throw {A} v w : outcome (@throw A v) w = Throw v.
Proof. reflexivity. Qed.

Lemma exec_Date_now w : exec Date_now w = tick w.
Proof. reflexivity. Qed.

Lemma outcome_Date_now w : outcome Date_now w = Ok (nextNow w).
Proof. reflexivity. Qed.

Lemma exec_transitionTo st w :
  exec (transitionTo st) w = mkWorld (set_currentStatus st (this w)) (host w).
Proof. reflexivity. Qed.

Lemma outcome_transitionTo st w : outcome (transitionTo st) w = Ok tt.
Proof. reflexivity. Qed.

Create Rewrite HintDb js.

#[local] Hint Rewrite @exec_ret @outcome_ret @exec_bind @outcome_bind
  @exec_tryCatch @outcome_tryCatch @exec_get @outcome_get
  exec_modify outcome_modify exec_onHost outcome_onHost
  @exec_throw @outcome_throw exec_Date_now outcome_Date_now
  exec_transitionTo outcome_transitionTo : js.

(** Symbolic evaluation of a computation on a world. *)
Ltac js := repeat (autorewrite with js; cbn [when]).

(** The same, splitting on the tests the computation makes. *)
Ltac js_cases :=
  repeat first
    [ progress js
    | progress cbn [this host currentStatus set_healthyCount set_suspectCount
                    set_currentStatus set_history set_timer healthyCount
                    suspectCount intervals history timer]
    | case_decide
    | case_bool_decide ].

(** ** The window and the metrics *)

Lemma exec_getRecentHistory minutes w :
  exec (getRecentHistory minutes) w = tick w.
Proof. unfold getRecentHistory. by js. Qed.

Lemma outcome_getRecentHistory minutes w :
  outcome (getRecentHistory minutes) w =
  Ok (window (nextNow w) minutes (history (this w))).
Proof. unfold getRecentHistory. by js. Qed.

Lemma streakLoop_leading h current n streak :
  (n <= length h)%nat ->
  streakLoop h current n streak =
  streak + Z.of_nat (length (leading (hasStatus current) (reverse (take n h)))).
Proof.
  revert streak. induction n as [|i IH]; intros streak Hn.
  - rewrite take_0. cbn. lia.
  - destruct (lookup_lt_is_Some_2 h i) as [entry Hentry]; [lia|].
    rewrite (take_S_r _ _ _ Hentry), reverse_snoc. cbn.
    rewrite Hentry. unfold hasStatus at 1.
    destruct (decide (h_status entry = current)) as [Heq|Hne].
    + rewrite bool_decide_eq_true_2 by done. cbn.
      rewrite IH by lia. lia.
    + rewrite bool_decide_eq_false_2 by done. cbn. lia.
Qed.

Lemma exec_getCurrentStreak w : exec getCurrentStreak w = w.
Proof.
  unfold getCurrentStreak. js.
  destruct (decide _); [done|]. by destruct (_ !! _).
Qed.

(** The loop of the code computes the streak of the specification. *)
Lemma outcome_getCurrentStreak w :
  outcome getCurrentStreak w = Ok (trailingStreak (history (this w))).
Proof.
  unfold getCurrentStreak, trailingStreak. js.
  destruct (history (this w)) as [|e0 h0] using rev_ind; [done|].
  clear IHh0. rewrite reverse_snoc, length_app. cbn.
  destruct (decide _) as [Hlen|_]; [lia|].
  replace (length h0 + 1 - 1)%nat with (length h0) by lia.
  rewrite lookup_app_r, Nat.sub_diag by lia. cbn.
  f_equal.
  rewrite streakLoop_leading by (rewrite length_app; lia).
  by rewrite take_app_length.
Qed.

Lemma countEntry_fold st l acc :
  foldl countEntry acc l !! st =
  if decide (occurrences st l = 0) then acc !! st
  else Some (default 0 (acc !! st) + occurrences st l).
Proof.
  revert acc. unfold occurrences.
  induction l as [|entry l IH]; intros acc; [done|].
  cbn [foldl]. rewrite IH. unfold countEntry.
  rewrite filter_cons.
  destruct (decide (h_status entry = st)) as [->|Hne].
  - rewrite lookup_insert_eq. cbn [length default].
    unfold id. repeat case_decide; try lia; f_equal; lia.
  - rewrite lookup_insert_ne by done. done.
Qed.

Lemma emptyWindowCounts_lookup st :
  emptyWindowCounts !! st = Some (if decide (st = healthy) then 1 else 0).
Proof. by destruct st. Qed.

Lemma exec_getMetrics w : exec getMetrics w = tick w.
Proof.
  unfold getMetrics. js.
  rewrite outcome_getRecentHistory, exec_getRecentHistory.
  destruct (decide _); js; [done|].
  by rewrite outcome_getCurrentStreak, exec_getCurrentStreak.
Qed.

Lemma outcome_getMetrics w :
  outcome getMetrics w =
  let recent := window (nextNow w) 60 (history (this w)) in
  if decide (length recent = 0%nat)
  then Ok (mkMetrics 1%Q emptyWindowCounts 1)
  else
    let counts := foldl countEntry ∅ recent in
    Ok (mkMetrics
          (Qdiv (inject_Z (default 0 (counts !! healthy)))
                (inject_Z (Z.of_nat (length recent))))
          counts (trailingStreak (history (this w)))).
Proof.
  unfold getMetrics. js.
  rewrite outcome_getRecentHistory, exec_getRecentHistory.
  cbn zeta. destruct (decide _); js; [done|].
  by rewrite outcome_getCurrentStreak.
Qed.

(** C1, as amended.  [getMetrics().currentStreak] is the streak of the
    full history whenever the 60-minute window is not empty; when the
    window is empty (in particular when the history is empty) it is 1. *)
Theorem getMetrics_currentStreak (w : World) :
  exists m,
    outcome getMetrics w = Ok m /\
    (window (nextNow w) 60 (history (this w)) <> [] ->
       currentStreak m = trailingStreak (history (this w))) /\
    (window (nextNow w) 60 (history (this w)) = [] -> currentStreak m = 1) /\
    (history (this w) = [] -> currentStreak m = 1).
Proof.
  rewrite outcome_getMetrics. cbn zeta.
  destruct (decide _) as [Hlen|Hlen]; eexists; (split; [done|]); cbn.
  - apply length_zero_iff_nil in Hlen. rewrite Hlen. by repeat split.
  - split; [done|]. split.
    + intros Hw. by rewrite Hw in Hlen.
    + intros Hh. by rewrite Hh in Hlen.
Qed.

(** C1 as stated fails on a monitor that has just been constructed: its
    history is empty, the streak of the specification is 0, and
    [getMetrics().currentStreak] is 1. *)
Lemma getMetrics_currentStreak_new_monitor :
  let w := new sampleClock sampleConfig in
  history (this w) = [] /\
  trailingStreak (history (this w)) = 0 /\
  exists m, outcome getMetrics w = Ok m /\ currentStreak m = 1 /\
            currentStreak m <> trailingStreak (history (this w)).
Proof.
  cbn zeta. split; [done|]. split; [done|].
  eexists. split; [by rewrite outcome_getMetrics|]. by cbn.
Qed.

(** The same divergence with a history that is not empty: two healthy
    results are recorded, and the metrics are read more than an hour
    later. *)
Example getMetrics_currentStreak_stale_history :
  exists w m,
    run (Check 7%nat :: cycles 1 [true; true]) (new lateClock sampleConfig)
      = Some w /\
    map h_status (history (this w)) = [healthy; healthy] /\
    trailingStreak (history (this w)) = 2 /\
    outcome getMetrics w = Ok m /\
    currentStreak m = 1.
Proof.
  eexists _, _. split; [by vm_compute|]. split; [done|]. split; [done|].
  split; [by rewrite outcome_getMetrics|]. done.
Qed.

(** C10.  With a non-empty 60-minute window, [statusCounts] has a key
    exactly for the statuses that occur in the window, mapped to their
    number of occurrences; with an empty window it maps all four
    statuses: healthy to 1 and the others to 0. *)
Theorem getMetrics_statusCounts (w : World) :
  exists m,
    outcome getMetrics w = Ok m /\
    let recent := window (nextNow w) 60 (history (this w)) in
    (recent <> [] ->
       forall st,
         statusCounts m !! st =
         if decide (occurrences st recent = 0) then None
         else Some (occurrences st recent)) /\
    (recent = [] ->
       forall st,
         statusCounts m !! st = Some (if decide (st = healthy) then 1 else 0)).
Proof.
  rewrite outcome_getMetrics. cbn zeta.
  destruct (decide _) as [Hlen|Hlen]; eexists; (split; [done|]); cbn.
  - apply length_zero_iff_nil in Hlen. rewrite Hlen.
    split; [done|]. intros _ st. apply emptyWindowCounts_lookup.
  - split; [|intros Hw; by rewrite Hw in Hlen].
    intros _ st. rewrite countEntry_fold, lookup_empty. cbn.
    case_decide; [done|]. f_equal; lia.
Qed.

(** ** Calling listeners *)

Lemma emits_nil h : emits [] h = h.
Proof. destruct h. unfold emits. cbn. by rewrite app_nil_r. Qed.

Lemma emits_emits es1 es2 h : emits es2 (emits es1 h) = emits (es1 ++ es2) h.
Proof. unfold emits. cbn. by rewrite app_assoc. Qed.

Lemma emit_emits e h : emit e h = emits [e] h.
Proof. reflexivity. Qed.

Lemma called_all ls : Forall returns ls -> called ls = ls.
Proof.
  induction 1 as [|l ls Hl _ IH]; [done|].
  cbn. rewrite Hl. by rewrite IH.
Qed.

Lemma called_prefix ls : called ls `prefix_of` ls.
Proof.
  induction ls as [|l ls IH]; [done|]. cbn.
  destruct (l_raises l).
  - by apply (prefix_cons l [] ls), prefix_nil.
  - by apply prefix_cons.
Qed.

Section ForEach.
Variable call : Listener -> Event.

Let invoke (l : Listener) : M unit := onHost (emit (call l)) >> raisedBy l.

Lemma exec_forEach ls w :
  exec (forEach invoke ls) w =
  mkWorld (this w) (emits (map call (called ls)) (host w)).
Proof.
  revert w. induction ls as [|l ls IH]; intros w.
  - cbn. rewrite emits_nil. by destruct w.
  - cbn [forEach called]. unfold invoke at 1, raisedBy. js.
    destruct (l_raises l) as [v|]; js; [done|].
    rewrite IH. cbn. by rewrite emit_emits, emits_emits.
Qed.

Lemma outcome_forEach ls w :
  Forall returns ls -> outcome (forEach invoke ls) w = Ok tt.
Proof.
  intros Hls. revert w. induction Hls as [|l ls Hl _ IH]; intros w; [done|].
  cbn [forEach]. unfold invoke at 1, raisedBy. js. rewrite Hl. js. apply IH.
Qed.

Lemma outcome_forEach_raises ls w :
  ~ Forall returns ls -> exists v, outcome (forEach invoke ls) w = Throw v.
Proof.
  revert w. induction ls as [|l ls IH]; intros w Hls.
  - destruct Hls. constructor.
  - cbn [forEach]. unfold invoke at 1, raisedBy. js.
    destruct (l_raises l) as [v|] eqn:Hl; js; [by exists v|].
    apply IH. intros Hrest. apply Hls. by constructor.
Qed.
End ForEach.

Lemma exec_createEventData w : exec createEventData w = tick (tick w).
Proof.
  unfold createEventData. js.
  rewrite outcome_getRecentHistory, exec_getRecentHistory. js.
  rewrite exec_getMetrics.
  by destruct (outcome getMetrics _).
Qed.

Lemma outcome_createEventData w :
  exists data,
    outcome createEventData w = Ok data /\
    ev_status data = currentStatus (this w) /\
    ev_history data = window (nextNow w) 60 (history (this w)) /\
    outcome getMetrics (tick w) = Ok (ev_metrics data).
Proof.
  unfold createEventData. js.
  rewrite outcome_getRecentHistory, exec_getRecentHistory. js.
  rewrite outcome_getMetrics. cbn zeta.
  destruct (decide _); js; by eexists.
Qed.

Lemma exec_notifyListeners w :
  exists data,
    outcome createEventData w = Ok data /\
    exec notifyListeners w =
    mkWorld (this w)
      (emits (map (fun l => StatusCall l data)
                (called (registered (currentStatus (this w)) w)))
         (host (tick (tick w)))).
Proof.
  destruct (outcome_createEventData w) as (data & Hdata & _).
  exists data. split; [done|].
  unfold notifyListeners. js. rewrite Hdata, exec_createEventData. js.
  unfold callStatusListener.
  by rewrite (exec_forEach (fun l => StatusCall l data)).
Qed.

Lemma notifyListeners_this w : this (exec notifyListeners w) = this w.
Proof. by destruct (exec_notifyListeners w) as (data & _ & ->). Qed.

Lemma outcome_notifyListeners w :
  Forall returns (registered (currentStatus (this w)) w) ->
  outcome notifyListeners w = Ok tt.
Proof.
  intros Hls. destruct (outcome_createEventData w) as (data & Hdata & _).
  unfold notifyListeners. js. rewrite Hdata, exec_createEventData. js.
  unfold callStatusListener.
  by apply (outcome_forEach (fun l => StatusCall l data)).
Qed.

Lemma outcome_notifyListeners_raises w :
  ~ Forall returns (registered (currentStatus (this w)) w) ->
  exists v, outcome notifyListeners w = Throw v.
Proof.
  intros Hls. destruct (outcome_createEventData w) as (data & Hdata & _).
  unfold notifyListeners. js. rewrite Hdata, exec_createEventData. js.
  unfold callStatusListener.
  by apply (outcome_forEach_raises (fun l => StatusCall l data)).
Qed.

(** ** The update of the counters and of the status *)

Lemma outcome_countResult b w : outcome (countResult b) w = Ok tt.
Proof.
  unfold countResult. destruct b; by js_cases.
Qed.

Lemma countResult_success w :
  exec (countResult true) w =
  let p := set_suspectCount 0
             (set_healthyCount (healthyCount (this w) + 1) (this w)) in
  mkWorld
    (if decide (minHealthyCount (intervals (this w))
                  <= healthyCount (this w) + 1)
     then set_currentStatus healthy p else p)
    (host w).
Proof.
  unfold countResult. by js_cases.
Qed.

Lemma countResult_failure w :
  exec (countResult false) w =
  let p := set_healthyCount 0 (this w) in
  let p' := set_suspectCount (suspectCount (this w) + 1) p in
  let escalate :=
    decide (maxSuspectCount (intervals (this w))
              <= suspectCount (this w) + 1) in
  mkWorld
    match currentStatus (this w) with
    | healthy =>
        set_currentStatus (if escalate then unhealthy else suspect) p'
    | suspect => if escalate then set_currentStatus unhealthy p' else p'
    | unhealthy | error => p
    end
    (host w).
Proof.
  unfold countResult. cbn zeta.
  destruct (currentStatus (this w)) eqn:Hst; js_cases; try done; congruence.
Qed.

Lemma exec_recordStatus w :
  exec recordStatus w =
  let h := history (this w) ++ [mkEntry (currentStatus (this w)) (nextNow w)] in
  mkWorld
    (set_history (if decide (100 < length h)%nat then drop 1 h else h) (this w))
    (host (tick w)).
Proof.
  unfold recordStatus. js. cbn.
  case_bool_decide; case_decide; try done; by js.
Qed.

Lemma outcome_recordStatus w : outcome recordStatus w = Ok tt.
Proof. unfold recordStatus. js. cbn. by case_bool_decide. Qed.

Lemma settled_eq b w : settled b w = exec recordStatus (exec (countResult b) w).
Proof. unfold settled. js. by rewrite outcome_countResult. Qed.

(** [updateStatus] is the bookkeeping, followed by the notification when
    the status has changed. *)
Lemma exec_updateStatus b w :
  exec (updateStatus b) w =
  if decide (currentStatus (this w) <> currentStatus (this (settled b w)))
  then exec notifyListeners (settled b w)
  else settled b w.
Proof.
  rewrite settled_eq. unfold updateStatus. js.
  rewrite outcome_countResult, outcome_recordStatus. js.
  case_bool_decide; case_decide; done.
Qed.

Lemma outcome_updateStatus b w :
  outcome (updateStatus b) w =
  if decide (currentStatus (this w) <> currentStatus (this (settled b w)))
  then outcome notifyListeners (settled b w)
  else Ok tt.
Proof.
  rewrite settled_eq. unfold updateStatus. js.
  rewrite outcome_countResult, outcome_recordStatus. js.
  case_bool_decide; case_decide; done.
Qed.

Lemma updateStatus_this b w :
  this (exec (updateStatus b) w) = this (settled b w).
Proof.
  rewrite exec_updateStatus. case_decide; [|done]. apply notifyListeners_this.
Qed.

Lemma settled_this b w :
  this (settled b w) =
  let p := this (exec (countResult b) w) in
  let h := history p ++ [mkEntry (currentStatus p) (nextNow w)] in
  set_history (if decide (100 < length h)%nat then drop 1 h else h) p.
Proof.
  rewrite settled_eq, exec_recordStatus. cbn zeta. cbn [this].
  by destruct b; rewrite ?countResult_success, ?countResult_failure.
Qed.

Lemma settled_host b w : host (settled b w) = host (tick w).
Proof.
  rewrite settled_eq, exec_recordStatus. cbn zeta. cbn [host].
  by destruct b; rewrite ?countResult_success, ?countResult_failure.
Qed.

(** The fields of the instance after an update, read off the counters
    before it. *)
Ltac after_update :=
  rewrite ?updateStatus_this, ?settled_this,
    ?countResult_success, ?countResult_failure;
  cbn zeta; cbn [this host].

(** C2.  A failure update resets [healthyCount].  From [healthy] it
    increments [suspectCount] and moves to [unhealthy] when the counter
    has reached [maxSuspectCount] (is at least it), to [suspect]
    otherwise.  From [suspect] it increments [suspectCount] and moves to
    [unhealthy] exactly when the counter has reached [maxSuspectCount].
    In [unhealthy] neither the status nor [suspectCount] changes. *)
Theorem updateStatus_failure (w : World) :
  let p := this w in
  let p' := this (exec (updateStatus false) w) in
  let max := maxSuspectCount (intervals p) in
  healthyCount p' = 0 /\
  (currentStatus p = healthy ->
     suspectCount p' = suspectCount p + 1 /\
     currentStatus p' =
       if decide (max <= suspectCount p') then unhealthy else suspect) /\
  (currentStatus p = suspect ->
     suspectCount p' = suspectCount p + 1 /\
     currentStatus p' =
       if decide (max <= suspectCount p') then unhealthy else suspect) /\
  (currentStatus p = unhealthy ->
     suspectCount p' = suspectCount p /\ currentStatus p' = unhealthy).
Proof.
  cbn zeta. after_update.
  destruct (currentStatus (this w)) eqn:Hst;
    repeat split; intros; try discriminate; cbn;
    repeat case_decide; try done; lia.
Qed.

Lemma successes_S n w :
  successes (S n) w = exec (updateStatus true) (successes n w).
Proof. reflexivity. Qed.

Lemma updateStatus_intervals b w :
  intervals (this (exec (updateStatus b) w)) = intervals (this w).
Proof.
  destruct b; after_update.
  - by repeat case_decide.
  - destruct (currentStatus (this w)); by repeat case_decide.
Qed.

Lemma successes_intervals n w :
  intervals (this (successes n w)) = intervals (this w).
Proof.
  induction n as [|n IH]; [done|].
  by rewrite successes_S, updateStatus_intervals.
Qed.

(** A success update, spelled out for one step. *)
Lemma updateStatus_success (w : World) :
  let p := this w in
  let p' := this (exec (updateStatus true) w) in
  healthyCount p' = healthyCount p + 1 /\
  suspectCount p' = 0 /\
  currentStatus p' =
    if decide (minHealthyCount (intervals p) <= healthyCount p + 1)
    then healthy else currentStatus p.
Proof. cbn zeta. after_update. by repeat case_decide. Qed.

(** C3.  Each success update increments [healthyCount] and resets
    [suspectCount].  After [n >= 1] successes in a row, on top of the
    [healthyCount] successes already counted since the last failure, the
    status is [healthy] if the count has reached [minHealthyCount] and is
    unchanged if it has not.  So from [suspect] or [unhealthy], where a
    failure has just reset the count, [minHealthyCount] successes lead to
    [healthy] and fewer leave the status as it is. *)
Theorem successes_recover (w : World) (n : nat) :
  (0 < n)%nat ->
  let p := this w in
  let p' := this (successes n w) in
  let min := minHealthyCount (intervals p) in
  healthyCount p' = healthyCount p + Z.of_nat n /\
  suspectCount p' = 0 /\
  currentStatus p' =
    (if decide (min <= healthyCount p + Z.of_nat n)
     then healthy else currentStatus p) /\
  (healthyCount p = 0 -> Z.of_nat n = min -> currentStatus p' = healthy) /\
  (healthyCount p = 0 -> Z.of_nat n < min ->
   currentStatus p' = currentStatus p).
Proof.
  cbn zeta. intros Hn.
  assert (healthyCount (this (successes n w))
            = healthyCount (this w) + Z.of_nat n /\
          suspectCount (this (successes n w)) = 0 /\
          currentStatus (this (successes n w)) =
            if decide (minHealthyCount (intervals (this w))
                         <= healthyCount (this w) + Z.of_nat n)
            then healthy else currentStatus (this w)) as (Hhc & Hsc & Hst).
  { induction n as [|n IH]; [lia|]. clear Hn.
    rewrite successes_S.
    destruct (updateStatus_success (successes n w)) as (-> & -> & ->).
    rewrite successes_intervals. destruct n as [|n].
    - cbn [successes]. split; [lia|]. split; [done|].
      repeat case_decide; lia || done.
    - destruct IH as (-> & _ & ->); [lia|]. split; [lia|]. split; [done|].
      repeat case_decide; lia || done. }
  rewrite Hst. repeat split; try done.
  - intros H0 Hmin. rewrite decide_True by lia. done.
  - intros H0 Hmin. rewrite decide_False by lia. done.
Qed.

(** ** Timers *)

Lemma exec_scheduleNext w :
  exec scheduleNext w =
  let t := nextTimer (host w) in
  mkWorld (set_timer (Some t) (this w))
    (emit (TimerSet t (nextDelay w)) (arm t (nextDelay w) (cleared w))).
Proof.
  unfold scheduleNext, cleared, nextDelay, setTimeout, clearTimeout. js.
  destruct (timer (this w)) as [id|]; js; reflexivity.
Qed.

Lemma outcome_scheduleNext w : outcome scheduleNext w = Ok tt.
Proof.
  unfold scheduleNext, setTimeout, clearTimeout. js.
  destruct (timer (this w)) as [id|]; js; reflexivity.
Qed.

Lemma exec_stop w :
  exec stop w =
  match timer (this w) with
  | Some id =>
      mkWorld (set_timer None (this w))
        (emit (TimerCleared id) (disarm id (host w)))
  | None => w
  end.
Proof.
  unfold stop, clearTimeout. js.
  destruct (timer (this w)) as [id|]; js; reflexivity.
Qed.


(** ** Registration *)

Lemma exec_on st l w :
  exec (on st l) w =
  mkWorld
    (set_listeners (<[st := registered st w ++ [l]]> (listeners (this w)))
       (this w))
    (host w).
Proof.
  unfold on, registered. js. cbn.
  destruct (listeners (this w) !! st) as [ls|] eqn:Hls.
  - rewrite bool_decide_eq_true_2 by eauto. js. cbn. by rewrite Hls.
  - rewrite bool_decide_eq_false_2 by (by intros [? ?]). js. cbn.
    by rewrite lookup_insert_eq, insert_insert_eq.
Qed.

Lemma outcome_on st l w : outcome (on st l) w = Ok tt.
Proof. unfold on. js. by destruct (bool_decide _); js. Qed.

(** [on] appends: the list under a key is in registration order, and the
    other keys keep their lists. *)
Lemma registered_on st l st' w :
  registered st' (exec (on st l) w) =
  if decide (st = st') then registered st' w ++ [l] else registered st' w.
Proof.
  rewrite exec_on. unfold registered at 1. cbn.
  rewrite lookup_insert. by case_decide; subst.
Qed.

(** ** The error path and the probe cycle *)

Lemma updateStatus_listeners b w :
  listeners (this (exec (updateStatus b) w)) = listeners (this w).
Proof.
  destruct b; after_update.
  - by repeat case_decide.
  - destruct (currentStatus (this w)); by repeat case_decide.
Qed.

Lemma registered_updateStatus st b w :
  registered st (exec (updateStatus b) w) = registered st w.
Proof. unfold registered. by rewrite updateStatus_listeners. Qed.

Lemma registered_settled st b w : registered st (settled b w) = registered st w.
Proof.
  rewrite <- (registered_updateStatus st b w). unfold registered.
  by rewrite updateStatus_this.
Qed.

Lemma registered_scheduleNext st w :
  registered st (exec scheduleNext w) = registered st w.
Proof. by rewrite exec_scheduleNext. Qed.

Lemma exec_handleError e w :
  exec (handleError e) w =
  match outcome (updateStatus false) w with
  | Ok _ =>
      let w2 := exec scheduleNext (exec (updateStatus false) w) in
      mkWorld (this w2)
        (emits (map (fun l => ErrorCall l e) (called (registered error w)))
           (host w2))
  | Throw _ => exec (updateStatus false) w
  end.
Proof.
  unfold handleError. js.
  destruct (outcome (updateStatus false) w); [|done].
  rewrite outcome_scheduleNext. js. unfold callErrorListener.
  rewrite (exec_forEach (fun l => ErrorCall l e)).
  change (default [] (listeners (this ?x) !! error)) with (registered error x).
  by rewrite registered_scheduleNext, registered_updateStatus.
Qed.

Lemma outcome_handleError e w :
  outcome (updateStatus false) w = Ok tt ->
  Forall returns (registered error w) ->
  outcome (handleError e) w = Ok tt.
Proof.
  intros Hup Herr. unfold handleError. js. rewrite Hup.
  rewrite outcome_scheduleNext. js. unfold callErrorListener.
  apply (outcome_forEach (fun l => ErrorCall l e)).
  change (default [] (listeners (this ?x) !! error)) with (registered error x).
  by rewrite registered_scheduleNext, registered_updateStatus.
Qed.

Lemma exec_check fn w :
  exec (check fn) w =
  let w0 := mkWorld (set_checkFn (Some fn) (this w)) (host w) in
  match outcome notifyListeners w0 with
  | Ok _ => exec scheduleNext (exec notifyListeners w0)
  | Throw _ => exec notifyListeners w0
  end.
Proof. unfold check. js. by destruct (outcome notifyListeners _). Qed.

Lemma exec_runCheck_call w :
  exec runCheck_call w =
  match checkFn (this w) with
  | Some fn =>
      mkWorld (this w)
        (emit (ProbeCall fn) (set_inflight (S (inflight (host w))) (host w)))
  | None => exec (handleError (NewError "Check function is not defined")) w
  end.
Proof.
  unfold runCheck_call, callProbe. js.
  destruct (checkFn (this w)); by js.
Qed.

Lemma exec_runCheck_rejected v w :
  exec (runCheck_resume (Rejected v)) w = exec (handleError (asError v)) w.
Proof. unfold runCheck_resume. by js. Qed.

Lemma outcome_runCheck_rejected v w :
  outcome (runCheck_resume (Rejected v)) w =
  outcome (handleError (asError v)) w.
Proof. unfold runCheck_resume. by js. Qed.

Lemma exec_runCheck_resolved b w :
  exec (runCheck_resume (Resolved b)) w =
  match outcome (updateStatus b) w with
  | Ok _ => exec scheduleNext (exec (updateStatus b) w)
  | Throw v => exec (handleError (asError v)) (exec (updateStatus b) w)
  end.
Proof.
  unfold runCheck_resume. js.
  destruct (outcome (updateStatus b) w); js; [|done].
  by rewrite outcome_scheduleNext.
Qed.

(** C6.  A success update resets [suspectCount]; a failure update resets
    [healthyCount], and so does the error path, whether it is entered
    directly or by a rejected probe. *)
Theorem updateStatus_resets (w : World) :
  suspectCount (this (exec (updateStatus true) w)) = 0 /\
  healthyCount (this (exec (updateStatus false) w)) = 0 /\
  (forall e, healthyCount (this (exec (handleError e) w)) = 0) /\
  (forall v, healthyCount (this (exec (runCheck_resume (Rejected v)) w)) = 0).
Proof.
  assert (Hfail : healthyCount (this (exec (updateStatus false) w)) = 0).
  { after_update. destruct (currentStatus (this w)); by repeat case_decide. }
  assert (Herr : forall e, healthyCount (this (exec (handleError e) w)) = 0).
  { intros e. rewrite exec_handleError.
    destruct (outcome (updateStatus false) w); [|done].
    by rewrite exec_scheduleNext. }
  repeat split; [|done|done|].
  - after_update. by repeat case_decide.
  - intros v. by rewrite exec_runCheck_rejected.
Qed.

(** ** What an update leaves alone *)

Lemma updateStatus_host b w :
  exists ls data k,
    host (exec (updateStatus b) w) =
    emits (map (fun l => StatusCall l data) ls) (set_ticks k (host w)).
Proof.
  rewrite exec_updateStatus. case_decide.
  - destruct (exec_notifyListeners (settled b w)) as (data & _ & ->).
    eexists _, data, _. cbn [host tick]. rewrite settled_host. reflexivity.
  - exists [], (mkEventData healthy [] (mkMetrics 1%Q ∅ 0)),
      (S (ticks (host w))).
    by rewrite settled_host, emits_nil.
Qed.

Lemma updateStatus_pending b w :
  pending (host (exec (updateStatus b) w)) = pending (host w).
Proof. by destruct (updateStatus_host b w) as (ls & data & k & ->). Qed.

Lemma updateStatus_inflight b w :
  inflight (host (exec (updateStatus b) w)) = inflight (host w).
Proof. by destruct (updateStatus_host b w) as (ls & data & k & ->). Qed.

Lemma updateStatus_timer b w :
  timer (this (exec (updateStatus b) w)) = timer (this w).
Proof.
  destruct b; after_update.
  - by repeat case_decide.
  - destruct (currentStatus (this w)); by repeat case_decide.
Qed.

Lemma updateStatus_status b w :
  currentStatus (this w) <> error ->
  currentStatus (this (exec (updateStatus b) w)) <> error.
Proof.
  intros Hst. destruct b; after_update.
  - repeat case_decide; cbn; done.
  - destruct (currentStatus (this w)) eqn:E;
      repeat case_decide; cbn; rewrite ?E; done.
Qed.

(** The history after an update: the entry is appended, and the oldest
    entry is dropped when that makes 101. *)
Lemma updateStatus_appends b w :
  let w' := exec (updateStatus b) w in
  let h :=
    history (this w) ++ [mkEntry (currentStatus (this w')) (nextNow w)] in
  history (this w') = if decide (100 < length h)%nat then drop 1 h else h.
Proof.
  cbn zeta. destruct b; after_update.
  - by repeat case_decide.
  - destruct (currentStatus (this w)); by repeat case_decide.
Qed.

(** ** Consistency is kept by everything that can happen *)

Lemma Consistent_new c cfg : Consistent (new c cfg).
Proof. split; cbn; try done; try lia. by left. Qed.

Lemma Consistent_updateStatus b w :
  Consistent w -> Consistent (exec (updateStatus b) w).
Proof.
  intros [Hst Hcap Hh Hs Ht]. split.
  - by apply updateStatus_status.
  - rewrite updateStatus_appends. cbn zeta.
    case_decide; rewrite ?length_drop, length_app in *; cbn in *; lia.
  - destruct b; after_update.
    + repeat case_decide; cbn; done.
    + destruct (currentStatus (this w)) eqn:E;
        repeat case_decide; cbn; rewrite ?E; done.
  - rewrite updateStatus_intervals. destruct b; after_update.
    + repeat case_decide; cbn; try done; intros E; specialize (Hs E); lia.
    + destruct (currentStatus (this w)) eqn:E;
        repeat case_decide; cbn; rewrite ?E; try done; intros _;
        try specialize (Hh eq_refl); try specialize (Hs eq_refl); lia.
  - by rewrite updateStatus_pending, updateStatus_timer.
Qed.

(** Consistency speaks of the status, the counter, the history and the
    timer only. *)
Lemma Consistent_frame w w' :
  currentStatus (this w') = currentStatus (this w) ->
  history (this w') = history (this w) ->
  suspectCount (this w') = suspectCount (this w) ->
  intervals (this w') = intervals (this w) ->
  pending (host w') = pending (host w) ->
  timer (this w') = timer (this w) ->
  Consistent w -> Consistent w'.
Proof.
  intros E1 E2 E3 E4 E5 E6 [Hst Hcap Hh Hs Ht].
  split; rewrite ?E1, ?E2, ?E3, ?E4, ?E5, ?E6; done.
Qed.

Lemma Consistent_tick w : Consistent w -> Consistent (tick w).
Proof. by apply Consistent_frame. Qed.

Lemma Consistent_notifyListeners w :
  Consistent w -> Consistent (exec notifyListeners w).
Proof.
  destruct (exec_notifyListeners w) as (data & _ & ->).
  by apply Consistent_frame.
Qed.

Lemma Consistent_on st l w : Consistent w -> Consistent (exec (on st l) w).
Proof. rewrite exec_on. by apply Consistent_frame. Qed.

Lemma cleared_pending w : Consistent w -> pending (cleared w) = [].
Proof.
  intros [_ _ _ _ Ht]. unfold cleared.
  destruct Ht as [Hp|(t & d & Hp & Htimer)].
  - destruct (timer (this w)); cbn; by rewrite Hp.
  - rewrite Htimer. cbn. rewrite Hp, filter_cons. cbn.
    by rewrite decide_False by (intros Hne; by apply Hne).
Qed.

(** After [scheduleNext] exactly one timer is armed: the one the instance
    holds, with the delay of the current status. *)
Lemma scheduleNext_pending w :
  Consistent w ->
  pending (host (exec scheduleNext w)) = [(nextTimer (host w), nextDelay w)] /\
  timer (this (exec scheduleNext w)) = Some (nextTimer (host w)).
Proof.
  intros Hw. rewrite exec_scheduleNext. cbn.
  by rewrite (cleared_pending w Hw).
Qed.

Lemma Consistent_scheduleNext w :
  Consistent w -> Consistent (exec scheduleNext w).
Proof.
  intros Hw. destruct (scheduleNext_pending w Hw) as [Hp Ht].
  destruct Hw as [Hst Hcap Hh Hs _].
  split; rewrite ?Hp, ?Ht; rewrite ?exec_scheduleNext; cbn; eauto.
Qed.

(** After [stop] no timer is armed and the instance holds none. *)
Lemma stop_pending w :
  Consistent w ->
  pending (host (exec stop w)) = [] /\ timer (this (exec stop w)) = None.
Proof.
  intros Hw. pose proof (cleared_pending w Hw) as Hc.
  rewrite exec_stop. unfold cleared in Hc.
  destruct (timer (this w)) eqn:E; cbn in *; by rewrite ?E.
Qed.

Lemma Consistent_stop w : Consistent w -> Consistent (exec stop w).
Proof.
  intros Hw. destruct (stop_pending w Hw) as [Hp Ht].
  destruct Hw as [Hst Hcap Hh Hs _].
  split; rewrite ?Hp, ?Ht; [| | | |by left];
    rewrite exec_stop; by destruct (timer (this w)).
Qed.

Lemma Consistent_handleError e w :
  Consistent w -> Consistent (exec (handleError e) w).
Proof.
  intros Hw. rewrite exec_handleError.
  pose proof (Consistent_updateStatus false w Hw) as Hup.
  destruct (outcome (updateStatus false) w); [|done]. cbn zeta.
  by apply (Consistent_frame (exec scheduleNext (exec (updateStatus false) w)));
    [..|apply Consistent_scheduleNext].
Qed.

Lemma Consistent_check fn w : Consistent w -> Consistent (exec (check fn) w).
Proof.
  intros Hw. rewrite exec_check. cbn zeta.
  assert (Consistent (mkWorld (set_checkFn (Some fn) (this w)) (host w)))
    as Hw0 by (by apply (Consistent_frame w)).
  apply Consistent_notifyListeners in Hw0.
  destruct (outcome notifyListeners _); [|done].
  by apply Consistent_scheduleNext.
Qed.

Lemma Consistent_runCheck_call w :
  Consistent w -> Consistent (exec runCheck_call w).
Proof.
  intros Hw. rewrite exec_runCheck_call. destruct (checkFn (this w)).
  - by apply (Consistent_frame w).
  - by apply Consistent_handleError.
Qed.

Lemma Consistent_runCheck_resume o w :
  Consistent w -> Consistent (exec (runCheck_resume o) w).
Proof.
  intros Hw. destruct o as [b|v].
  - rewrite exec_runCheck_resolved.
    pose proof (Consistent_updateStatus b w Hw) as Hup.
    destruct (outcome (updateStatus b) w).
    + by apply Consistent_scheduleNext.
    + by apply Consistent_handleError.
  - rewrite exec_runCheck_rejected. by apply Consistent_handleError.
Qed.

Lemma exec_getters w :
  (forall minutes, exec (getRecentHistory minutes >> ret tt) w = tick w) /\
  exec (getMetrics >> ret tt) w = tick w.
Proof.
  split; [intros minutes|]; js.
  - rewrite outcome_getRecentHistory, exec_getRecentHistory. by js.
  - rewrite exec_getMetrics, outcome_getMetrics. cbn zeta.
    by destruct (decide _).
Qed.

Lemma Consistent_step a w w' :
  Consistent w -> step a w = Some w' -> Consistent w'.
Proof.
  intros Hw. unfold step. destruct (enabled a w) eqn:Hen; [|done].
  intros [= <-]. destruct a as [fn|st l| |minutes| |t|o].
  - by apply Consistent_check.
  - by apply Consistent_on.
  - by apply Consistent_stop.
  - cbn [perform]. destruct (exec_getters w) as [-> _].
    by apply Consistent_tick.
  - cbn [perform]. destruct (exec_getters w) as [_ ->].
    by apply Consistent_tick.
  - cbn [perform]. unfold fire. js. apply Consistent_runCheck_call.
    cbn in Hen. apply bool_decide_eq_true_1 in Hen.
    destruct Hw as [Hst Hcap Hh Hs Ht]. split; try done. left. cbn.
    destruct Ht as [Hp|(t0 & d & Hp & _)]; rewrite Hp in *; [done|].
    cbn in Hen. apply list_elem_of_singleton in Hen as ->.
    rewrite filter_cons. cbn.
    by rewrite decide_False by (intros Hne; by apply Hne).
  - cbn [perform]. unfold settle. js. apply Consistent_runCheck_resume.
    by apply (Consistent_frame w).
Qed.

Lemma Reachable_Consistent c cfg w : Reachable c cfg w -> Consistent w.
Proof.
  induction 1 as [|w a w' _ IH Hstep].
  - apply Consistent_new.
  - by apply (Consistent_step a w).
Qed.

(** ** The history log *)

Lemma outcome_updateStatus_notified b w :
  Forall returns (notified b w) -> outcome (updateStatus b) w = Ok tt.
Proof.
  unfold notified. rewrite outcome_updateStatus. cbn zeta. intros Hls.
  case_decide; [|done]. apply outcome_notifyListeners.
  by rewrite registered_settled.
Qed.

Lemma outcome_updateStatus_raises b w :
  ~ Forall returns (notified b w) ->
  exists v, outcome (updateStatus b) w = Throw v.
Proof.
  unfold notified. rewrite outcome_updateStatus. cbn zeta. intros Hls.
  case_decide; [|destruct Hls; constructor].
  apply outcome_notifyListeners_raises. by rewrite registered_settled.
Qed.

(** C7, as amended.  In every reachable state the history has at most
    100 entries, and an update appends exactly one entry, stamped with
    the time of the update and carrying the status after it; when the
    history already holds 100 entries its oldest entry is dropped, so the
    bound is kept.  A probe that rejects makes one update, the failure
    update.  A probe that resolves makes one update when the status
    listeners that update calls return, as they do when the status
    stays, since then none is called; when one of them throws, the
    completion goes on to the error path and makes a second update, a
    failure update, so that it appends two entries. *)
Theorem updateStatus_history c cfg (w : World) (b : bool) :
  Reachable c cfg w ->
  let w' := exec (updateStatus b) w in
  let entry := mkEntry (currentStatus (this w')) (nextNow w) in
  (length (history (this w)) <= 100)%nat /\
  history (this w') =
    (if decide (length (history (this w)) < 100)%nat
     then history (this w) else drop 1 (history (this w))) ++ [entry] /\
  (length (history (this w')) <= 100)%nat /\
  (Forall returns (notified b w) ->
   history (this (exec (runCheck_resume (Resolved b)) w))
   = history (this w')) /\
  (~ Forall returns (notified b w) ->
   let w2 := exec (updateStatus false) w' in
   history (this (exec (runCheck_resume (Resolved b)) w))
   = history (this w2) /\
   history (this w2) =
     (if decide (length (history (this w')) < 100)%nat
      then history (this w') else drop 1 (history (this w')))
     ++ [mkEntry (currentStatus (this w2)) (nextNow w')]) /\
  (forall v,
     b = false ->
     history (this (exec (runCheck_resume (Rejected v)) w))
     = history (this w')).
Proof.
  intros Hw. apply Reachable_Consistent in Hw. cbn zeta.
  pose proof (history_capped w Hw) as Hcap.
  pose proof (history_capped _ (Consistent_updateStatus b w Hw)) as Hcap'.
  assert (forall b0 w0,
            (length (history (this w0)) <= 100)%nat ->
            history (this (exec (updateStatus b0) w0)) =
            (if decide (length (history (this w0)) < 100)%nat
             then history (this w0) else drop 1 (history (this w0)))
            ++ [mkEntry (currentStatus (this (exec (updateStatus b0) w0)))
                  (nextNow w0)]) as Happ.
  { intros b0 w0 Hle. rewrite updateStatus_appends. cbn zeta.
    rewrite length_app. cbn.
    repeat case_decide; try lia; [|done].
    rewrite drop_app_le by lia. done. }
  split; [done|]. split; [|split; [done|split; [|split]]].
  - by apply Happ.
  - intros Hls. rewrite exec_runCheck_resolved.
    rewrite outcome_updateStatus_notified by done.
    by rewrite exec_scheduleNext.
  - intros Hls. split; [|by apply Happ].
    rewrite exec_runCheck_resolved.
    destruct (outcome_updateStatus_raises b w Hls) as [v ->].
    rewrite exec_handleError.
    destruct (outcome (updateStatus false) _); [|done].
    by rewrite exec_scheduleNext.
  - intros v ->. rewrite exec_runCheck_rejected, exec_handleError.
    destruct (outcome (updateStatus false) w); [|done].
    by rewrite exec_scheduleNext.
Qed.

(** ** The status *)

(** C9.  In every reachable state the current status is healthy, suspect
    or unhealthy, never error; so the status [scheduleNext] looks the
    delay up with is the current status itself, and the replacement of
    error by unhealthy is never taken. *)
Theorem currentStatus_never_error c cfg (w : World) :
  Reachable c cfg w ->
  currentStatus (this w) <> error /\
  (currentStatus (this w) = healthy \/
   currentStatus (this w) = suspect \/
   currentStatus (this w) = unhealthy) /\
  intervalStatus (currentStatus (this w)) = currentStatus (this w) /\
  nextDelay w = intervalOf (intervals (this w)) (currentStatus (this w)).
Proof.
  intros Hw. apply Reachable_Consistent in Hw.
  pose proof (status_known w Hw) as Hst.
  unfold nextDelay, intervalStatus.
  destruct (currentStatus (this w)); try done; repeat split; auto.
Qed.

(** In reachable states the counter is 0 while healthy and below the
    threshold while suspect, so a failure makes it reach the threshold
    exactly when it makes it equal to the threshold. *)
Lemma suspectCount_reaches c cfg (w : World) :
  Reachable c cfg w ->
  let p := this w in
  let p' := this (exec (updateStatus false) w) in
  (currentStatus p = healthy ->
     suspectCount p' = 1 /\
     (currentStatus p' = unhealthy <-> maxSuspectCount (intervals p) <= 1)) /\
  (currentStatus p = suspect ->
     (currentStatus p' = unhealthy <->
      suspectCount p' = maxSuspectCount (intervals p)) /\
     (currentStatus p' = suspect <->
      suspectCount p' < maxSuspectCount (intervals p))).
Proof.
  intros Hw. apply Reachable_Consistent in Hw.
  destruct Hw as [_ _ Hh Hs _]. cbn zeta. after_update.
  destruct (currentStatus (this w)) eqn:E; split; intros; try done.
  - rewrite Hh by done.
    repeat case_decide; cbn; repeat split; try done; lia.
  - specialize (Hs eq_refl).
    repeat case_decide; cbn; rewrite ?E; repeat split; try done; lia.
Qed.

(** ** Notification *)

(** C5.  An update that leaves the status as it was calls no listener.
    An update that changes the status calls the listeners registered
    under the new status, in registration order and each with the same
    fresh snapshot: the new status, the history of the last 60 minutes
    and the metrics, all taken after the update.  (A listener that throws
    ends the round: the ones registered after it are not called.) *)
Theorem updateStatus_notifies (w : World) (b : bool) :
  let w' := exec (updateStatus b) w in
  let st' := currentStatus (this w') in
  (st' = currentStatus (this w) -> log (host w') = log (host w)) /\
  (st' <> currentStatus (this w) ->
     exists data,
       outcome createEventData (settled b w) = Ok data /\
       ev_status data = st' /\
       ev_history data =
         window (nextNow (settled b w)) 60 (history (this w')) /\
       outcome getMetrics (tick (settled b w)) = Ok (ev_metrics data) /\
       this (tick (settled b w)) = this w' /\
       log (host w') =
         log (host w) ++
         map (fun l => StatusCall l data) (called (registered st' w)) /\
       (Forall returns (registered st' w) ->
          log (host w') =
            log (host w) ++
            map (fun l => StatusCall l data) (registered st' w))).
Proof.
  cbn zeta. rewrite updateStatus_this, exec_updateStatus. split.
  - intros Hsame. rewrite decide_False by (by intros Hne; apply Hne).
    by rewrite settled_host.
  - intros Hnew. rewrite decide_True by done.
    destruct (exec_notifyListeners (settled b w)) as (data & Hdata & ->).
    destruct (outcome_createEventData (settled b w))
      as (data' & Hdata' & Hst & Hhist & Hm).
    rewrite Hdata in Hdata'. injection Hdata' as <-.
    exists data. rewrite registered_settled. cbn [this host tick log emits].
    rewrite settled_host. repeat split; try done.
    intros Hall. by rewrite called_all.
Qed.

(** ** The error path *)

(** C4, as amended.  When the probe rejects or throws, and the listeners
    that get called return (the status listeners the failure update
    calls, which are none when the status stays, and the error
    listeners), the monitor applies the failure update, then clears the
    timer it holds and arms a new one, then calls every listener
    registered under error exactly once, in registration order.  The
    listeners receive the raised value itself when it is an [Error], and
    a new [Error("Unknown error")] when it is not. *)
Theorem rejected_probe (w : World) (v : Thrown) :
  let w1 := exec (updateStatus false) w in
  let w3 := exec (runCheck_resume (Rejected v)) w in
  Forall returns (notified false w) ->
  Forall returns (registered error w) ->
  outcome (runCheck_resume (Rejected v)) w = Ok tt /\
  exec (runCheck_resume (Resolved false)) w = exec scheduleNext w1 /\
  this w3 = this (exec scheduleNext w1) /\
  pending (host w3) = pending (host (exec scheduleNext w1)) /\
  log (host w3) =
    log (host w1) ++
    match timer (this w) with
    | Some id => [TimerCleared id]
    | None => []
    end ++
    [TimerSet (nextTimer (host w)) (nextDelay w1)] ++
    map (fun l => ErrorCall l (asError v)) (registered error w) /\
  (forall e, v = ThrownError e -> asError v = e) /\
  (forall x, v = ThrownOther x -> asError v = NewError "Unknown error").
Proof.
  cbn zeta. intros Hst Herr.
  pose proof (outcome_updateStatus_notified false w Hst) as Hup.
  rewrite outcome_runCheck_rejected, exec_runCheck_rejected,
    exec_runCheck_resolved, exec_handleError, Hup.
  split; [by apply outcome_handleError|]. split; [done|]. cbn zeta.
  rewrite called_all by done. cbn [this host log emits].
  split; [done|]. split; [done|].
  split; [|split; by intros ? ->].
  rewrite exec_scheduleNext. cbn. unfold cleared.
  rewrite updateStatus_timer.
  destruct (updateStatus_host false w) as (ls & data & k & Hhost).
  rewrite Hhost. cbn.
  destruct (timer (this w)); cbn; by rewrite <- ?app_assoc.
Qed.

(** ** Stopping *)

Lemma probeCalls_snoc (l : list Event) e :
  isProbeCall e = false ->
  filter (fun e => isProbeCall e) (l ++ [e]) =
  filter (fun e => isProbeCall e) l.
Proof.
  intros He. rewrite filter_app, filter_cons, He.
  rewrite decide_False by (intros []). cbn. by rewrite app_nil_r.
Qed.

(** With no timer armed and no probe in flight, nothing but [check]
    makes the probe run again. *)
Lemma idle_step a w w' :
  pending (host w) = [] ->
  inflight (host w) = 0%nat ->
  isCheck a = false ->
  step a w = Some w' ->
  pending (host w') = [] /\ inflight (host w') = 0%nat /\
  probeCalls w' = probeCalls w.
Proof.
  intros Hp Hi Ha. unfold step.
  destruct a as [fn|st l| |minutes| |t|o]; try done; cbn [enabled].
  - intros [= <-]. cbn [perform]. by rewrite exec_on.
  - intros [= <-]. cbn [perform]. rewrite exec_stop.
    destruct (timer (this w)) as [id|]; [|done].
    unfold probeCalls. cbn. by rewrite probeCalls_snoc, Hp.
  - intros [= <-]. by destruct (exec_getters w) as [-> _].
  - intros [= <-]. by destruct (exec_getters w) as [_ ->].
  - rewrite Hp. cbn. by rewrite bool_decide_eq_false_2 by set_solver.
  - rewrite Hi. by rewrite bool_decide_eq_false_2 by lia.
Qed.



(** * The specification's scenarios, and the samples of the theorems *)

Lemma Reachable_run c cfg actions w w' :
  Reachable c cfg w -> run actions w = Some w' -> Reachable c cfg w'.
Proof.
  revert w. induction actions as [|a actions IH]; intros w Hw Hrun.
  - by injection Hrun as <-.
  - cbn in Hrun. destruct (step a w) as [w1|] eqn:Hstep; [|done].
    apply (IH w1); [|done]. by apply (Reachable_step c cfg w a).
Qed.

Lemma Reachable_after actions :
  is_Some (run actions (new sampleClock sampleConfig)) ->
  Reachable sampleClock sampleConfig (after actions).
Proof.
  intros [w Hw].
  apply (Reachable_run _ _ actions (new sampleClock sampleConfig)).
  - apply Reachable_new.
  - unfold after. by rewrite Hw.
Qed.

(** The scenarios of the specification, on the sample configuration
    (delays 1000, 500 and 2000, thresholds 3 and 2). *)

Example scenario_always_failing :
  map (fun n =>
         currentStatus
           (this (after (Check 7%nat :: cycles 1 (replicate n false)))))
    [0; 1; 2; 3; 4]%nat
  = [healthy; suspect; suspect; unhealthy; unhealthy].
Proof. vm_compute. reflexivity. Qed.

Example scenario_recovery :
  map (fun rs => currentStatus (this (after (Check 7%nat :: cycles 1 rs))))
    [[false]; [false; true]; [false; true; true]]
  = [suspect; suspect; healthy].
Proof. vm_compute. reflexivity. Qed.

Example scenario_delays :
  pending (host (after (Check 7%nat :: cycles 1 [false; false; false])))
  = [(4%nat, 2000)].
Proof. vm_compute. reflexivity. Qed.

Example scenario_stop_before_the_first_probe :
  run [Check 7%nat; Stop; TimerFires 1%nat] (new sampleClock sampleConfig)
    = None /\
  probeCalls (after [Check 7%nat; Stop]) = 0%nat.
Proof. vm_compute. done. Qed.

Example scenario_history_cap :
  let h n :=
    history (this (after (Check 7%nat :: cycles 1 (replicate n true)))) in
  (length (h 100%nat), h_timestamp <$> head (h 100%nat))
    = (100%nat, Some 2000) /\
  (length (h 101%nat), h_timestamp <$> head (h 101%nat))
    = (100%nat, Some 3000).
Proof. vm_compute. done. Qed.

Example scenario_status_calls :
  statusCalls
    (after (probing ++ ProbeSettles (Resolved false) :: cycles 2 [false; false]))
  = [(1%nat, suspect)].
Proof. vm_compute. reflexivity. Qed.

(** Why the theorems about a whole probe cycle ask for listeners that
    return: [runCheck]'s [try] also covers [updateStatus], so a status
    listener that throws sends a resolved probe down the error path, and
    the one result is counted twice. *)
Example scenario_throwing_listener :
  let w := after [On suspect (mkListener 1 (Some (ThrownOther 0)));
                  Check 7%nat; TimerFires 1%nat;
                  ProbeSettles (Resolved false)] in
  map h_status (history (this w)) = [suspect; suspect] /\
  suspectCount (this w) = 2.
Proof. vm_compute. done. Qed.

(** A sample of C3: one failure, then one and two successes. *)
Lemma successes_recover_sample :
  let w := after (probing ++ [ProbeSettles (Resolved false)]) in
  (0 < 2)%nat /\
  currentStatus (this w) = suspect /\
  healthyCount (this w) = 0 /\
  currentStatus (this (successes 1 w)) = suspect /\
  currentStatus (this (successes 2 w)) = healthy.
Proof.
  cbn zeta. split; [lia|]. split; [by vm_compute|]. split; [by vm_compute|].
  split.
  - destruct (successes_recover
                (after (probing ++ [ProbeSettles (Resolved false)])) 1)
      as (_ & _ & -> & _); [lia|]. by vm_compute.
  - destruct (successes_recover
                (after (probing ++ [ProbeSettles (Resolved false)])) 2)
      as (_ & _ & -> & _); [lia|]. by vm_compute.
Defined.

(** A sample of C7: a second failure appends a second entry. *)
Lemma updateStatus_history_sample :
  let w := after (probing ++ [ProbeSettles (Resolved false)]) in
  Reachable sampleClock sampleConfig w /\
  map h_status (history (this (exec (updateStatus false) w)))
  = [suspect; suspect].
Proof.
  cbn zeta.
  assert (Reachable sampleClock sampleConfig
            (after (probing ++ [ProbeSettles (Resolved false)]))) as Hw.
  { apply Reachable_after. vm_compute. eauto. }
  split; [exact Hw|].
  destruct (updateStatus_history _ _ _ false Hw) as (_ & -> & _).
  by vm_compute.
Defined.

(** C7 as stated fails when a status listener throws: [runCheck]'s [try]
    also covers [updateStatus], so the resolved probe goes on to
    [handleError], which updates again.  The one completion appends two
    entries to an empty history. *)
Lemma one_completion_two_entries :
  let thrower := mkListener 1 (Some (ThrownOther 0)) in
  let before := [On suspect thrower; Check 7%nat; TimerFires 1%nat] in
  (history ∘ this) <$> run before (new sampleClock sampleConfig) = Some [] /\
  (map h_status ∘ history ∘ this) <$>
    run (before ++ [ProbeSettles (Resolved false)])
      (new sampleClock sampleConfig)
  = Some [suspect; suspect].
Proof. cbn zeta. split; by vm_compute. Qed.

(** A sample of C9: after three failures the monitor is unhealthy and the
    next delay is the unhealthy one. *)
Lemma currentStatus_never_error_sample :
  let w := after (Check 7%nat :: cycles 1 [false; false; false]) in
  Reachable sampleClock sampleConfig w /\
  currentStatus (this w) = unhealthy /\
  nextDelay w = 2000.
Proof.
  cbn zeta.
  assert (Reachable sampleClock sampleConfig
            (after (Check 7%nat :: cycles 1 [false; false; false]))) as Hw.
  { apply Reachable_after. vm_compute. eauto. }
  split; [exact Hw|]. split; [by vm_compute|].
  destruct (currentStatus_never_error _ _ _ Hw) as (_ & _ & _ & ->).
  by vm_compute.
Defined.

(** A sample of C4: the probe of an unhealthy monitor rejects with an
    [Error].  The status stays, so the listener under unhealthy, which
    would throw, is not called; the timer is armed again and the error
    listener is called once, with that very object. *)
Lemma rejected_probe_sample :
  let w := after failing in
  let v := ThrownError (CallerError 5) in
  let w' := exec (runCheck_resume (Rejected v)) w in
  Forall returns (notified false w) /\
  Forall returns (registered error w) /\
  map l_raises (registered unhealthy w) = [Some (ThrownOther 0)] /\
  currentStatus (this w') = unhealthy /\
  pending (host w') = [(5%nat, 2000)] /\
  errorCalls w' = [(2%nat, CallerError 5)].
Proof.
  cbn zeta.
  assert (Forall returns (notified false (after failing))) as H1.
  { vm_compute. constructor. }
  assert (Forall returns (registered error (after failing))) as H2.
  { vm_compute. repeat constructor. }
  split; [exact H1|]. split; [exact H2|]. split; [by vm_compute|].
  destruct (rejected_probe (after failing) (ThrownError (CallerError 5)) H1 H2)
    as (_ & _ & -> & -> & Hlog & _).
  split; [by vm_compute|]. split; [by vm_compute|].
  unfold errorCalls. rewrite Hlog. by vm_compute.
Defined.

(** C4 as stated fails when the probe rejects with a value that is not an
    [Error]: the listener does not receive the raised value but a new
    [Error("Unknown error")]. *)
Lemma rejected_probe_not_an_Error :
  let v := ThrownOther 0 in
  errorCalls <$>
    run (probing ++ [ProbeSettles (Rejected v)]) (new sampleClock sampleConfig)
  = Some [(2%nat, NewError "Unknown error")] /\
  ThrownError (NewError "Unknown error") <> v.
Proof. cbn zeta. split; [by vm_compute|done]. Qed.


(** [stop()] when no timer is pending: the timer of the sample monitor
    has fired and a probe is in flight; the monitor still holds the
    handle.  [stop()] forgets it and nothing else changes. *)
Example scenario_stop_nothing_pending :
  let w := after probing in
  let w' := exec stop w in
  (pending (host w), timer (this w)) = ([], Some 1%nat) /\
  (pending (host w'), timer (this w')) = ([], None) /\
  (inflight (host w'), probeCalls w', statusCalls w', errorCalls w',
   core (this w'))
  = (inflight (host w), probeCalls w, statusCalls w, errorCalls w,
     core (this w)).
Proof.
  cbn zeta. split; [by vm_compute|]. split; [by vm_compute|].
  vm_compute. reflexivity.
Qed.


(** * Further properties of the monitor *)

(** ** Runs of equal results *)

Lemma failures_S n w :
  failures (S n) w = exec (updateStatus false) (failures n w).
Proof. reflexivity. Qed.

Lemma failures_intervals n w :
  intervals (this (failures n w)) = intervals (this w).
Proof.
  induction n as [|n IH]; [done|].
  by rewrite failures_S, updateStatus_intervals.
Qed.

(** One failure update, read off the fields before it. *)
Lemma updateStatus_failed (w : World) :
  let p := this w in
  let p' := this (exec (updateStatus false) w) in
  let max := maxSuspectCount (intervals p) in
  healthyCount p' = 0 /\
  (currentStatus p = healthy \/ currentStatus p = suspect ->
     suspectCount p' = suspectCount p + 1 /\
     currentStatus p' =
       if decide (max <= suspectCount p + 1) then unhealthy else suspect) /\
  (currentStatus p = unhealthy ->
     suspectCount p' = suspectCount p /\ currentStatus p' = unhealthy).
Proof.
  cbn zeta. after_update.
  destruct (currentStatus (this w)) eqn:Hst;
    (split; [by repeat case_decide|]); split;
    try (intros [?|?]; try discriminate); try (intros ?; try discriminate);
    repeat case_decide; cbn; rewrite ?Hst; done.
Qed.

(** X1.  From healthy or suspect, [n >= 1] failures in a row lead to
    unhealthy exactly when they take [suspectCount] to [maxSuspectCount]
    or beyond; until then the monitor is suspect and [suspectCount] has
    advanced by [n]. *)
Theorem failures_escalate (w : World) (n : nat) :
  (0 < n)%nat ->
  currentStatus (this w) = healthy \/ currentStatus (this w) = suspect ->
  let p' := this (failures n w) in
  let reach := suspectCount (this w) + Z.of_nat n in
  healthyCount p' = 0 /\
  currentStatus p' =
    (if decide (maxSuspectCount (intervals (this w)) <= reach)
     then unhealthy else suspect) /\
  (currentStatus p' = suspect -> suspectCount p' = reach).
Proof.
  cbn zeta. intros Hn Hst. induction n as [|n IH]; [lia|]. clear Hn.
  rewrite failures_S.
  destruct (updateStatus_failed (failures n w)) as (Hhc & Hrise & Hstay).
  rewrite failures_intervals in *. split; [done|].
  destruct n as [|n].
  - cbn [failures] in *. destruct (Hrise Hst) as [Hsc Hnew].
    rewrite Hnew, Hsc. split; [by repeat case_decide; try lia|].
    intros _. lia.
  - destruct IH as (_ & Hprev & Hcount); [lia|].
    destruct (decide (maxSuspectCount (intervals (this w))
                        <= suspectCount (this w) + Z.of_nat (S n)))
      as [Hle|Hgt].
    + destruct (Hstay Hprev) as [_ ->].
      rewrite decide_True by lia. split; [done|]. done.
    + destruct Hrise as [Hsc Hnew]; [by right|].
      rewrite Hnew, Hsc, (Hcount Hprev).
      split; [by repeat case_decide; try lia|]. intros _. lia.
Qed.

Lemma updateStatus_same_log b w :
  currentStatus (this (exec (updateStatus b) w)) = currentStatus (this w) ->
  log (host (exec (updateStatus b) w)) = log (host w).
Proof.
  rewrite updateStatus_this, exec_updateStatus. intros Hsame.
  rewrite decide_False by (by intros Hne; apply Hne).
  by rewrite settled_host.
Qed.

(** X2.  A steady state is silent: failures on an unhealthy monitor leave
    it unhealthy with the same [suspectCount], successes on a healthy
    monitor leave it healthy, and in both cases, however many results
    come in, no listener is called and no timer is touched by the
    updates. *)
Theorem steady_state_silent (w : World) (n : nat) :
  (currentStatus (this w) = unhealthy ->
     currentStatus (this (failures n w)) = unhealthy /\
     suspectCount (this (failures n w)) = suspectCount (this w) /\
     log (host (failures n w)) = log (host w)) /\
  (currentStatus (this w) = healthy ->
     currentStatus (this (successes n w)) = healthy /\
     log (host (successes n w)) = log (host w)).
Proof.
  split; intros Hst; induction n as [|n (IHst & IH)]; try done.
  - rewrite failures_S.
    destruct (updateStatus_failed (failures n w)) as (_ & _ & Hstay).
    destruct (Hstay IHst) as [Hsc Hnew]. destruct IH as [IHsc IHlog].
    rewrite Hnew, Hsc, IHsc. repeat split.
    rewrite updateStatus_same_log; [done|]. by rewrite Hnew.
  - rewrite successes_S.
    destruct (updateStatus_success (successes n w)) as (_ & _ & Hnew).
    rewrite IHst in Hnew.
    assert (currentStatus (this (exec (updateStatus true) (successes n w)))
            = healthy) as Hh by (rewrite Hnew; by case_decide).
    split; [done|]. rewrite updateStatus_same_log; [done|].
    by rewrite Hh.
Qed.

(** ** One timer, armed with the delay of the current status *)

(** X3.  In every reachable state at most one timer is armed, and it is
    the one whose handle the instance holds. *)
Theorem at_most_one_timer c cfg (w : World) :
  Reachable c cfg w ->
  (length (pending (host w)) <= 1)%nat /\
  (forall t d, (t, d) ∈ pending (host w) -> timer (this w) = Some t).
Proof.
  intros Hw. apply Reachable_Consistent in Hw.
  destruct (one_timer w Hw) as [Hp|(t0 & d0 & Hp & Ht)]; rewrite Hp.
  - split; [cbn; lia|]. intros t d Hin. by apply elem_of_nil in Hin.
  - split; [cbn; lia|]. intros t d Hin.
    apply list_elem_of_singleton in Hin. by injection Hin as -> ->.
Qed.

Lemma updateStatus_nextTimer b w :
  nextTimer (host (exec (updateStatus b) w)) = nextTimer (host w).
Proof. by destruct (updateStatus_host b w) as (ls & data & k & ->). Qed.

Lemma intervalStatus_known st : st <> error -> intervalStatus st = st.
Proof. unfold intervalStatus. intros Hst. by rewrite decide_False. Qed.

(** X4.  When the status listeners the update calls return (none is
    called when the status stays), a probe cycle ends with exactly one
    timer armed, and its delay is the interval configured for the status
    the update has led to, whether the probe resolved or rejected. *)
Theorem probe_cycle_reschedules c cfg (w : World) (o : ProbeOutcome) :
  Reachable c cfg w ->
  let b := match o with Resolved r => r | Rejected _ => false end in
  let st' := currentStatus (this (exec (updateStatus b) w)) in
  Forall returns (notified b w) ->
  let w' := exec (runCheck_resume o) w in
  currentStatus (this w') = st' /\
  timer (this w') = Some (nextTimer (host w)) /\
  pending (host w') =
    [(nextTimer (host w), intervalOf (intervals (this w)) st')].
Proof.
  intros Hw. cbn zeta. intros Hls. apply Reachable_Consistent in Hw.
  set (b := match o with Resolved r => r | Rejected _ => false end) in *.
  pose proof (Consistent_updateStatus b w Hw) as Hw1.
  pose proof (outcome_updateStatus_notified b w Hls) as Hup.
  destruct (scheduleNext_pending _ Hw1) as [Hp Ht].
  assert (nextDelay (exec (updateStatus b) w) =
          intervalOf (intervals (this w))
            (currentStatus (this (exec (updateStatus b) w)))) as Hd.
  { unfold nextDelay.
    rewrite updateStatus_intervals, intervalStatus_known; [done|].
    apply (status_known _ Hw1). }
  rewrite updateStatus_nextTimer, Hd in *.
  destruct o as [r|v]; subst b.
  - rewrite exec_runCheck_resolved, Hup. split; [|done].
    by rewrite exec_scheduleNext.
  - rewrite exec_runCheck_rejected, exec_handleError, Hup. cbn zeta.
    cbn [this host pending emits]. split; [|done].
    by rewrite exec_scheduleNext.
Qed.

(** ** Starting and registering *)

(** X5.  [check(fn)] on a reachable monitor whose listeners return:
    installs the probe, calls the listeners registered under the current
    status, in order, with a snapshot of the current state (an empty
    history and the default metrics if no probe has completed yet),
    then replaces the armed timer, if any, by a timer with the delay of
    the current status.  The status, the counters and the history are
    left alone. *)
Theorem check_starts c cfg (w : World) (fn : CheckFunction) :
  Reachable c cfg w ->
  let st := currentStatus (this w) in
  Forall returns (registered st w) ->
  let w' := exec (check fn) w in
  outcome (check fn) w = Ok tt /\
  checkFn (this w') = Some fn /\
  (currentStatus (this w'), suspectCount (this w'), healthyCount (this w'),
   history (this w')) =
  (st, suspectCount (this w), healthyCount (this w), history (this w)) /\
  timer (this w') = Some (nextTimer (host w)) /\
  pending (host w') = [(nextTimer (host w), intervalOf (intervals (this w)) st)] /\
  exists data,
    ev_status data = st /\
    ev_history data = window (nextNow w) 60 (history (this w)) /\
    (history (this w) = [] ->
       ev_history data = [] /\
       ev_metrics data = mkMetrics 1%Q emptyWindowCounts 1) /\
    log (host w') =
      log (host w) ++
      map (fun l => StatusCall l data) (registered st w) ++
      match timer (this w) with
      | Some id => [TimerCleared id]
      | None => []
      end ++
      [TimerSet (nextTimer (host w)) (intervalOf (intervals (this w)) st)].
Proof.
  intros Hw. cbn zeta. intros Hls. apply Reachable_Consistent in Hw.
  set (w0 := mkWorld (set_checkFn (Some fn) (this w)) (host w)).
  assert (Consistent w0) as Hw0 by (by apply (Consistent_frame w)).
  assert (outcome notifyListeners w0 = Ok tt) as Hok
    by (by apply outcome_notifyListeners).
  destruct (exec_notifyListeners w0) as (data & Hdata & Hexec).
  destruct (outcome_createEventData w0) as (data' & Hdata' & Hst & Hhist & Hm).
  rewrite Hdata in Hdata'. injection Hdata' as <-.
  assert (Consistent (exec notifyListeners w0)) as Hw1
    by (by apply Consistent_notifyListeners).
  destruct (scheduleNext_pending _ Hw1) as [Hp Ht].
  assert (nextDelay (exec notifyListeners w0) =
          intervalOf (intervals (this w)) (currentStatus (this w))) as Hd.
  { unfold nextDelay. rewrite notifyListeners_this. cbn.
    rewrite intervalStatus_known; [done|]. apply (status_known _ Hw). }
  assert (nextTimer (host (exec notifyListeners w0)) = nextTimer (host w))
    as Hnt by (by rewrite Hexec).
  rewrite Hd, Hnt in Hp. rewrite Hnt in Ht.
  split.
  { unfold check. js.
    change (mkWorld (set_checkFn (Some fn) (this w)) (host w)) with w0.
    by rewrite Hok, outcome_scheduleNext. }
  rewrite exec_check. fold w0. cbn zeta. rewrite Hok.
  split; [by rewrite exec_scheduleNext, notifyListeners_this|].
  split; [by rewrite exec_scheduleNext, notifyListeners_this|].
  rewrite Ht, Hp. split; [done|]. split; [done|].
  exists data. split; [done|]. split; [done|]. split.
  - intros Hnil. split; [by rewrite Hhist; cbn; rewrite Hnil|].
    rewrite outcome_getMetrics in Hm. unfold w0 in Hm.
    cbn [tick this set_checkFn history] in Hm.
    rewrite Hnil in Hm. cbn in Hm. by injection Hm as <-.
  - rewrite exec_scheduleNext, Hd, Hnt. unfold cleared.
    rewrite notifyListeners_this, Hexec. cbn.
    change (called (registered (currentStatus (this w0)) w0))
      with (called (registered (currentStatus (this w)) w)).
    rewrite called_all by done.
    destruct (timer (this w)); cbn; by rewrite <- ?app_assoc.
Qed.

Lemma registerAll_snoc rs st l w :
  registerAll (rs ++ [(st, l)]) w = exec (on st l) (registerAll rs w).
Proof. unfold registerAll. by rewrite foldl_snoc. Qed.

(** X6.  [on] never throws and only appends: after any series of [on]
    calls the list under a key is what it was, followed by the listeners
    registered under that key, in call order and with repetitions; the
    host and every other field of the instance are untouched. *)
Theorem on_registers (w : World) (rs : list (CheckStatus * Listener)) :
  (forall st l, outcome (on st l) w = Ok tt) /\
  (forall st,
     registered st (registerAll rs w) =
     registered st w ++ (filter (fun r => r.1 = st) rs).*2) /\
  host (registerAll rs w) = host w /\
  set_listeners (listeners (this w)) (this (registerAll rs w)) = this w.
Proof.
  split; [intros; apply outcome_on|].
  induction rs as [|[st0 l0] rs IH] using rev_ind.
  - cbn. split; [intros; by rewrite app_nil_r|]. split; [done|].
    by destruct w as [[] ?].
  - destruct IH as (IHreg & IHhost & IHthis).
    rewrite registerAll_snoc. split; [|split].
    + intros st. rewrite registered_on, IHreg, filter_app, filter_cons.
      cbn. case_decide; subst; cbn.
      * by rewrite fmap_app, app_assoc.
      * by rewrite app_nil_r.
    + by rewrite exec_on.
    + rewrite exec_on. by cbn.
Qed.

(** ** Reading the history *)

Lemma window_wider now m1 m2 h :
  m1 <= m2 -> window now m1 h `sublist_of` window now m2 h.
Proof.
  intros Hm. unfold window. induction h as [|e h IH]; [done|].
  rewrite !filter_cons. repeat case_decide; try lia.
  - by apply sublist_skip.
  - by apply sublist_cons.
  - done.
Qed.

(** X7.  [getRecentHistory(minutes)] never throws and changes nothing of
    the instance.  It returns, in their order in the history, exactly the
    entries whose timestamp is not below the time of the call minus
    [minutes * 60 * 1000]; a call with more minutes at the same time
    returns at least the same entries. *)
Theorem getRecentHistory_window (w : World) (minutes : Z) :
  exists recent,
    outcome (getRecentHistory minutes) w = Ok recent /\
    this (exec (getRecentHistory minutes) w) = this w /\
    recent `sublist_of` history (this w) /\
    (forall e,
       e ∈ recent <->
       e ∈ history (this w) /\
       nextNow w - minutes * 60 * 1000 <= h_timestamp e) /\
    (forall more,
       minutes <= more ->
       recent `sublist_of` window (nextNow w) more (history (this w))).
Proof.
  exists (window (nextNow w) minutes (history (this w))).
  rewrite outcome_getRecentHistory, exec_getRecentHistory.
  split; [done|]. split; [done|]. split; [apply sublist_filter|]. split.
  - intros e. unfold window. rewrite list_elem_of_filter. tauto.
  - intros more Hmore. by apply window_wider.
Qed.

Lemma occurrences_total l :
  occurrences healthy l + occurrences suspect l + occurrences unhealthy l
  + occurrences error l = Z.of_nat (length l).
Proof.
  unfold occurrences. induction l as [|e l IH]; [done|].
  rewrite !filter_cons. destruct (h_status e);
    repeat case_decide; try done; cbn [length]; lia.
Qed.

Lemma occurrences_bounds st l : 0 <= occurrences st l <= Z.of_nat (length l).
Proof.
  unfold occurrences. split; [lia|].
  apply inj_le, sublist_length, sublist_filter.
Qed.

Lemma ratio_bounds a n :
  0 <= a <= n -> 0 < n -> (0 <= inject_Z a / inject_Z n <= 1)%Q.
Proof.
  intros Ha Hn.
  assert (0 < inject_Z n)%Q as Hpos.
  { change 0%Q with (inject_Z 0). by rewrite <- Zlt_Qlt. }
  split.
  - apply Qle_shift_div_l; [done|]. rewrite Qmult_0_l.
    change 0%Q with (inject_Z 0). rewrite <- Zle_Qle. lia.
  - apply Qle_shift_div_r; [done|]. rewrite Qmult_1_l.
    rewrite <- Zle_Qle. lia.
Qed.

(** X8.  The metrics are consistent with the window.  [availability] is
    always between 0 and 1.  With a non-empty window the counts
    [statusCounts] holds add up to the number of entries in the window
    and [availability] is the share of healthy entries; with an empty
    window [availability] is 1 and the counts add up to 1, although the
    window holds no entry. *)
Theorem getMetrics_totals (w : World) :
  exists m,
    outcome getMetrics w = Ok m /\
    let recent := window (nextNow w) 60 (history (this w)) in
    let total :=
      countOf m healthy + countOf m suspect + countOf m unhealthy
      + countOf m error in
    (0 <= availability m <= 1)%Q /\
    (recent <> [] ->
       total = Z.of_nat (length recent) /\
       availability m =
         (inject_Z (occurrences healthy recent)
          / inject_Z (Z.of_nat (length recent)))%Q) /\
    (recent = [] -> total = 1 /\ availability m = 1%Q).
Proof.
  rewrite outcome_getMetrics. cbn zeta.
  set (recent := window (nextNow w) 60 (history (this w))).
  assert (forall st,
            default 0 (foldl countEntry ∅ recent !! st) = occurrences st recent)
    as Hcount.
  { intros st. rewrite countEntry_fold, lookup_empty. cbn.
    case_decide as Hocc; cbn; [by rewrite Hocc|lia]. }
  destruct (decide _) as [Hlen|Hlen]; eexists; (split; [done|]);
    unfold countOf; cbn [availability statusCounts].
  - apply length_zero_iff_nil in Hlen. split; [done|]. split; [done|].
    intros _. by rewrite !emptyWindowCounts_lookup.
  - rewrite !Hcount. split; [|split].
    + apply ratio_bounds; [apply occurrences_bounds|lia].
    + intros _. split; [apply occurrences_total|done].
    + intros Hnil. by rewrite Hnil in Hlen.
Qed.

(** ** Every action is made of moves *)

Lemma Bookkeeping_refl w : Bookkeeping w w.
Proof.
  split; try done. exists []. by rewrite app_nil_r.
Qed.

Lemma Move_tick w : Move w (tick w).
Proof.
  apply Move_bookkeeping. split; try done; [cbn; lia|].
  exists []. by rewrite app_nil_r.
Qed.

Lemma Move_scheduleNext w : Move w (exec scheduleNext w).
Proof.
  apply Move_bookkeeping. rewrite exec_scheduleNext. unfold cleared.
  split; try done; destruct (timer (this w)) as [id|]; cbn; try done.
  - exists [TimerCleared id; TimerSet (nextTimer (host w)) (nextDelay w)].
    split; [by rewrite <- app_assoc|]. by repeat constructor.
  - exists [TimerSet (nextTimer (host w)) (nextDelay w)].
    split; [done|]. by repeat constructor.
Qed.

Lemma Move_stop w : Move w (exec stop w).
Proof.
  apply Move_bookkeeping. rewrite exec_stop.
  destruct (timer (this w)) as [id|]; [|apply Bookkeeping_refl].
  split; try done. exists [TimerCleared id]. split; [done|].
  by repeat constructor.
Qed.

Lemma Moves_updateStatus b w : rtc Move w (exec (updateStatus b) w).
Proof.
  rewrite exec_updateStatus. case_decide.
  - eapply rtc_l; [apply (Move_settled w b)|].
    apply rtc_once, Move_notify.
  - apply rtc_once, Move_settled.
Qed.

Lemma Moves_handleError e w : rtc Move w (exec (handleError e) w).
Proof.
  rewrite exec_handleError.
  destruct (outcome (updateStatus false) w); [|apply Moves_updateStatus].
  cbn zeta. etrans; [apply Moves_updateStatus|].
  eapply rtc_l; [apply Move_scheduleNext|].
  rewrite <- (registered_updateStatus error false w).
  rewrite <- (registered_scheduleNext error (exec (updateStatus false) w)).
  apply rtc_once, Move_errors.
Qed.

Lemma Moves_check fn w : rtc Move w (exec (check fn) w).
Proof.
  rewrite exec_check. cbn zeta.
  eapply rtc_l.
  { apply (Move_bookkeeping w (mkWorld (set_checkFn (Some fn) (this w)) (host w))).
    split; try done. exists []. by rewrite app_nil_r. }
  eapply rtc_l; [apply Move_notify|].
  destruct (outcome notifyListeners _); [|done].
  apply rtc_once, Move_scheduleNext.
Qed.

Lemma Moves_runCheck_call w : rtc Move w (exec runCheck_call w).
Proof.
  rewrite exec_runCheck_call. destruct (checkFn (this w)) as [fn|].
  - apply rtc_once, Move_bookkeeping. split; try done.
    exists [ProbeCall fn]. split; [done|]. by repeat constructor.
  - apply Moves_handleError.
Qed.

Lemma Moves_runCheck_resume o w : rtc Move w (exec (runCheck_resume o) w).
Proof.
  destruct o as [b|v].
  - rewrite exec_runCheck_resolved.
    destruct (outcome (updateStatus b) w).
    + etrans; [apply Moves_updateStatus|]. apply rtc_once, Move_scheduleNext.
    + etrans; [apply Moves_updateStatus|]. apply Moves_handleError.
  - rewrite exec_runCheck_rejected. apply Moves_handleError.
Qed.

Lemma Moves_step a w w' : step a w = Some w' -> rtc Move w w'.
Proof.
  unfold step. destruct (enabled a w); [|done]. intros [= <-].
  destruct a as [fn|st l| |minutes| |t|o]; cbn [perform].
  - apply Moves_check.
  - apply rtc_once, Move_on.
  - apply rtc_once, Move_stop.
  - destruct (exec_getters w) as [-> _]. apply rtc_once, Move_tick.
  - destruct (exec_getters w) as [_ ->]. apply rtc_once, Move_tick.
  - unfold fire. js. eapply rtc_l; [|apply Moves_runCheck_call].
    apply Move_bookkeeping. split; try done. exists [].
    by rewrite app_nil_r.
  - unfold settle. js. eapply rtc_l; [|apply Moves_runCheck_resume].
    apply Move_bookkeeping. split; try done. exists [].
    by rewrite app_nil_r.
Qed.

(** What holds of a new monitor and is kept by every move holds in every
    reachable state. *)
Lemma Reachable_by_moves (P : World -> Prop) c cfg :
  P (new c cfg) ->
  (forall w w', P w -> Move w w' -> P w') ->
  forall w, Reachable c cfg w -> P w.
Proof.
  intros Hnew Hmove w Hw. induction Hw as [|w a w' _ IH Hstep]; [done|].
  apply Moves_step in Hstep.
  induction Hstep as [|w1 w2 w3 H12 _ IH23]; [done|].
  apply IH23. by apply (Hmove w1).
Qed.

(** A move either settles a result or leaves the [core] alone; it never
    changes the clock and never turns it back. *)
Lemma Move_core w w' :
  Move w w' ->
  core (this w') = core (this w) \/ exists b, w' = settled b w.
Proof.
  destruct 1 as [w w' Hbk|w st l|w b|w|w e].
  - left. apply (bk_core _ _ Hbk).
  - left. by rewrite exec_on.
  - right. by exists b.
  - left. by rewrite notifyListeners_this.
  - by left.
Qed.

Lemma Move_clock w w' :
  Move w w' ->
  clock (host w') = clock (host w) /\ (ticks (host w) <= ticks (host w'))%nat.
Proof.
  destruct 1 as [w w' Hbk|w st l|w b|w|w e].
  - split; [apply (bk_clock _ _ Hbk)|apply (bk_ticks _ _ Hbk)].
  - by rewrite exec_on.
  - rewrite settled_host. cbn. split; [done|lia].
  - destruct (exec_notifyListeners w) as (data & _ & ->). cbn. split; [done|lia].
  - by cbn.
Qed.

Lemma settled_core b w :
  this (settled b w) = this (exec (updateStatus b) w).
Proof. by rewrite updateStatus_this. Qed.

Lemma core_fields p p' :
  core p' = core p ->
  currentStatus p' = currentStatus p /\ suspectCount p' = suspectCount p /\
  healthyCount p' = healthyCount p /\ history p' = history p /\
  intervals p' = intervals p.
Proof. unfold core. by intros [= -> -> -> -> ->]. Qed.

(** ** The history holds no error entry *)

Lemma occurrences_absent st l :
  Forall (fun e => h_status e <> st) l -> occurrences st l = 0.
Proof.
  unfold occurrences. induction 1 as [|e l He _ IH]; [done|].
  by rewrite filter_cons, decide_False.
Qed.

Lemma Forall_window (P : HistoryEntry -> Prop) now minutes h :
  Forall P h -> Forall P (window now minutes h).
Proof.
  rewrite !Forall_forall. intros Hall e He.
  apply list_elem_of_filter in He as [_ He]. by apply Hall.
Qed.

(** X9.  In every reachable state no history entry has the status error,
    so none is ever handed out by [getRecentHistory], and with a
    non-empty window [statusCounts] has no key error. *)
Theorem history_never_error c cfg (w : World) :
  Reachable c cfg w ->
  Forall (fun e => h_status e <> error) (history (this w)) /\
  (forall minutes recent,
     outcome (getRecentHistory minutes) w = Ok recent ->
     Forall (fun e => h_status e <> error) recent) /\
  exists m,
    outcome getMetrics w = Ok m /\
    (window (nextNow w) 60 (history (this w)) <> [] ->
     statusCounts m !! error = None).
Proof.
  intros Hw.
  assert (currentStatus (this w) <> error /\
          Forall (fun e => h_status e <> error) (history (this w)))
    as [_ Hall].
  { revert w Hw. apply Reachable_by_moves; [by split|].
    intros w w' [Hst Hall] Hmove.
    destruct (Move_core w w' Hmove) as [Hcore|[b ->]].
    - apply core_fields in Hcore as (-> & _ & _ & -> & _). done.
    - rewrite settled_core. split; [by apply updateStatus_status|].
      rewrite updateStatus_appends. cbn zeta.
      assert (Forall (fun e => h_status e <> error)
                (history (this w) ++
                 [mkEntry (currentStatus (this (exec (updateStatus b) w)))
                    (nextNow w)])) as Happ.
      { apply Forall_app. split; [done|]. apply Forall_singleton. cbn.
        by apply updateStatus_status. }
      case_decide; [|done]. by apply Forall_drop. }
  split; [done|]. split.
  - intros minutes recent. rewrite outcome_getRecentHistory.
    intros [= <-]. by apply Forall_window.
  - rewrite outcome_getMetrics. cbn zeta.
    destruct (decide _) as [Hlen|Hlen]; eexists; (split; [done|]); cbn.
    + apply length_zero_iff_nil in Hlen. by rewrite Hlen.
    + intros _. rewrite countEntry_fold, lookup_empty.
      rewrite occurrences_absent; [done|]. by apply Forall_window.
Qed.

(** ** Counters *)


(** ** Chronological order *)

Lemma chronological_snoc h e :
  chronological h ->
  (forall e', e' ∈ h -> h_timestamp e' <= h_timestamp e) ->
  chronological (h ++ [e]).
Proof.
  intros Hh Hle i j e1 e2 Hij H1 H2.
  destruct (decide (j < length h)%nat) as [Hj|Hj].
  - rewrite lookup_app_l in H1, H2 by lia. by apply (Hh i j).
  - rewrite lookup_app_r in H2 by lia.
    apply list_lookup_singleton_Some in H2 as [_ <-].
    destruct (decide (i < length h)%nat) as [Hi|Hi].
    + rewrite lookup_app_l in H1 by lia.
      apply Hle. by apply list_elem_of_lookup_2 in H1.
    + rewrite lookup_app_r in H1 by lia.
      apply list_lookup_singleton_Some in H1 as [_ <-]. lia.
Qed.

Lemma chronological_drop n h : chronological h -> chronological (drop n h).
Proof.
  intros Hh i j e1 e2 Hij H1 H2. rewrite lookup_drop in H1, H2.
  apply (Hh (n + i)%nat (n + j)%nat); [lia|done|done].
Qed.

Lemma chronological_cons e h :
  chronological (e :: h) ->
  chronological h /\ forall e', e' ∈ h -> h_timestamp e <= h_timestamp e'.
Proof.
  intros Hh. split.
  - apply (chronological_drop 1 (e :: h) Hh).
  - intros e' He'. apply list_elem_of_lookup_1 in He' as [j Hj].
    apply (Hh 0%nat (S j)); [lia|done|done].
Qed.

Lemma window_all now minutes h :
  (forall e, e ∈ h -> now - minutes * 60 * 1000 <= h_timestamp e) ->
  window now minutes h = h.
Proof.
  unfold window. induction h as [|e h IH]; intros Hall; [done|].
  rewrite filter_cons, decide_True by (apply Hall; left).
  f_equal. apply IH. intros e' He'. apply Hall. by right.
Qed.

Lemma window_none now minutes h :
  (forall e, e ∈ h -> h_timestamp e < now - minutes * 60 * 1000) ->
  window now minutes h = [].
Proof.
  unfold window. induction h as [|e h IH]; intros Hall; [done|].
  rewrite filter_cons, decide_False by (specialize (Hall e); set_solver by lia).
  apply IH. intros e' He'. apply Hall. by right.
Qed.

(** Of entries in chronological order the recent ones are the last ones. *)
Lemma window_suffix now minutes h :
  chronological h -> exists k, window now minutes h = drop k h.
Proof.
  induction h as [|e h IH]; intros Hh; [by exists 0%nat|].
  pose proof Hh as Hcons. apply chronological_cons in Hcons as [Hh' He].
  destruct (decide (now - minutes * 60 * 1000 <= h_timestamp e)) as [Hnew|Hold].
  - exists 0%nat. cbn [drop]. apply window_all.
    intros e' [->|He']%elem_of_cons; [done|]. specialize (He e' He'). lia.
  - destruct (IH Hh') as [k Hk]. exists (S k). cbn [drop]. rewrite <- Hk.
    unfold window. by rewrite filter_cons, decide_False.
Qed.

(** X11.  If the clock never goes backwards then, in every reachable
    state, the history is in chronological order and no entry is stamped
    later than the clock's next reading; [getRecentHistory] returns a
    suffix of the history: the most recent entries, with no gap.  With
    negative minutes it returns nothing, and with 0 minutes only entries
    stamped with the very time of the call. *)
Theorem history_chronological c cfg (w : World) :
  monotone c ->
  Reachable c cfg w ->
  chronological (history (this w)) /\
  (forall e, e ∈ history (this w) -> h_timestamp e <= nextNow w) /\
  forall minutes,
    exists k,
      outcome (getRecentHistory minutes) w = Ok (drop k (history (this w))) /\
      (minutes < 0 -> drop k (history (this w)) = []) /\
      (minutes = 0 ->
       forall e, e ∈ drop k (history (this w)) -> h_timestamp e = nextNow w).
Proof.
  intros Hmono Hw.
  assert (clock (host w) = c /\ chronological (history (this w)) /\
          forall e n, e ∈ history (this w) -> (ticks (host w) <= n)%nat ->
                      h_timestamp e <= c n) as (Hc & Hchron & Hpast).
  { revert w Hw. apply Reachable_by_moves.
    - split; [done|]. split; [by intros i j e1 e2 _ H1|].
      intros e n He. by apply elem_of_nil in He.
    - intros w w' (Hc & Hchron & Hpast) Hmove.
      destruct (Move_clock w w' Hmove) as [Hclock Hticks].
      split; [by rewrite Hclock|].
      destruct (Move_core w w' Hmove) as [Hcore|[b ->]].
      + apply core_fields in Hcore as (_ & _ & _ & -> & _).
        split; [done|]. intros e n He Hn. apply Hpast; [done|lia].
      + rewrite settled_core, updateStatus_appends. cbn zeta.
        set (entry := mkEntry _ (nextNow w)).
        assert (chronological (history (this w) ++ [entry])) as Happ.
        { apply chronological_snoc; [done|]. intros e' He'. cbn.
          unfold nextNow. rewrite Hc. by apply Hpast. }
        assert (forall e n, e ∈ history (this w) ++ [entry] ->
                            (S (ticks (host w)) <= n)%nat ->
                            h_timestamp e <= c n) as Hpast'.
        { intros e n [He| ->%list_elem_of_singleton]%elem_of_app Hn.
          - apply Hpast; [done|lia].
          - cbn. unfold nextNow. rewrite Hc. apply Hmono. lia. }
        rewrite settled_host in Hticks |- *. cbn [ticks tick host set_ticks].
        case_decide.
        * split; [by apply chronological_drop|].
          intros e n He Hn. apply Hpast'; [|done].
          by apply (subseteq_drop 1).
        * done. }
  split; [done|]. split.
  { intros e He. unfold nextNow. rewrite Hc. by apply Hpast. }
  intros minutes. rewrite outcome_getRecentHistory.
  destruct (window_suffix (nextNow w) minutes _ Hchron) as [k Hk].
  exists k. rewrite Hk. split; [done|]. rewrite <- Hk. split.
  - intros Hneg. apply window_none. intros e He.
    assert (h_timestamp e <= nextNow w)
      by (unfold nextNow; rewrite Hc; by apply Hpast). lia.
  - intros -> e He. unfold window in He.
    apply list_elem_of_filter in He as [Hnew He].
    assert (h_timestamp e <= nextNow w)
      by (unfold nextNow; rewrite Hc; by apply Hpast). lia.
Qed.

(** ** Listeners are called for their own key *)

Lemma callKeyed_mono w w' e :
  (forall st l, l ∈ registered st w -> l ∈ registered st w') ->
  callKeyed w e -> callKeyed w' e.
Proof. intros Hreg. destruct e; cbn; intuition. Qed.

Lemma callKeyed_log w w' :
  (forall st l, l ∈ registered st w -> l ∈ registered st w') ->
  Forall (callKeyed w) (log (host w)) ->
  Forall (callKeyed w') (log (host w)).
Proof.
  intros Hreg Hall. eapply Forall_impl; [exact Hall|].
  intros e. by apply callKeyed_mono.
Qed.

(** X12.  In every reachable state, every call the host has seen went to
    a listener registered under the key of the call: a snapshot only to
    a listener registered under the snapshot's status, which is never
    error, and a raised error only to a listener registered under
    error. *)
Theorem listeners_called_for_their_key c cfg (w : World) :
  Reachable c cfg w ->
  (forall l data,
     StatusCall l data ∈ log (host w) ->
     ev_status data <> error /\ l ∈ registered (ev_status data) w) /\
  (forall l e, ErrorCall l e ∈ log (host w) -> l ∈ registered error w).
Proof.
  intros Hw.
  assert (currentStatus (this w) <> error /\
          Forall (callKeyed w) (log (host w))) as [_ Hlog].
  { revert w Hw. apply Reachable_by_moves; [by split|].
    intros w w' [Hst Hlog] Hmove.
    destruct Hmove as [w w' Hbk|w st l|w b|w|w e].
    - destruct Hbk as [Hcore Hls _ _ (es & Hes & Hquiet)].
      apply core_fields in Hcore as (-> & _). split; [done|].
      rewrite Hes. apply Forall_app. split.
      + apply (callKeyed_log w); [|done]. unfold registered. by rewrite Hls.
      + eapply Forall_impl; [apply Hquiet|]. by intros [] He.
    - assert (host (exec (on st l) w) = host w) as ->
        by (by rewrite exec_on).
      assert (currentStatus (this (exec (on st l) w))
              = currentStatus (this w)) as -> by (by rewrite exec_on).
      split; [done|]. apply (callKeyed_log w); [|done].
      intros st' l' Hl'. rewrite registered_on.
      case_decide; [|done]. apply elem_of_app. by left.
    - rewrite settled_core, settled_host.
      split; [by apply updateStatus_status|]. cbn [log tick host set_ticks].
      apply (callKeyed_log w); [|done]. intros st l.
      by rewrite <- (registered_settled st b w).
    - destruct (exec_notifyListeners w) as (data & Hdata & ->).
      destruct (outcome_createEventData w) as (data' & Hdata' & Hev & _).
      rewrite Hdata in Hdata'. injection Hdata' as <-.
      split; [done|]. cbn. apply Forall_app. split; [done|].
      apply Forall_fmap, Forall_forall. intros l Hl. cbn. rewrite Hev.
      split; [done|].
      by apply (elem_of_prefix _ _ _ Hl), called_prefix.
    - split; [done|]. cbn. apply Forall_app. split; [done|].
      apply Forall_fmap, Forall_forall. intros l Hl. cbn.
      by apply (elem_of_prefix _ _ _ Hl), called_prefix. }
  rewrite Forall_forall in Hlog. split.
  - intros l data Hin. apply (Hlog _ Hin).
  - intros l e Hin. apply (Hlog _ Hin).
Qed.

(** ** The probe and the probes in flight *)

Lemma updateStatus_checkFn b w :
  checkFn (this (exec (updateStatus b) w)) = checkFn (this w).
Proof.
  destruct b; after_update.
  - by repeat case_decide.
  - destruct (currentStatus (this w)); by repeat case_decide.
Qed.

Lemma handleError_keeps e w :
  checkFn (this (exec (handleError e) w)) = checkFn (this w) /\
  inflight (host (exec (handleError e) w)) = inflight (host w).
Proof.
  rewrite exec_handleError.
  destruct (outcome (updateStatus false) w).
  - cbn zeta. rewrite exec_scheduleNext. cbn. unfold cleared.
    rewrite updateStatus_checkFn. split; [done|].
    destruct (timer _); cbn; apply updateStatus_inflight.
  - by rewrite updateStatus_checkFn, updateStatus_inflight.
Qed.

Lemma scheduleNext_keeps w :
  checkFn (this (exec scheduleNext w)) = checkFn (this w) /\
  inflight (host (exec scheduleNext w)) = inflight (host w).
Proof.
  rewrite exec_scheduleNext. unfold cleared. cbn.
  by destruct (timer (this w)).
Qed.

Lemma runCheck_resume_keeps o w :
  checkFn (this (exec (runCheck_resume o) w)) = checkFn (this w) /\
  inflight (host (exec (runCheck_resume o) w)) = inflight (host w).
Proof.
  destruct o as [b|v].
  - rewrite exec_runCheck_resolved.
    destruct (outcome (updateStatus b) w).
    + destruct (scheduleNext_keeps (exec (updateStatus b) w)) as [-> ->].
      by rewrite updateStatus_checkFn, updateStatus_inflight.
    + destruct (handleError_keeps (asError v) (exec (updateStatus b) w))
        as [-> ->].
      by rewrite updateStatus_checkFn, updateStatus_inflight.
  - rewrite exec_runCheck_rejected. apply handleError_keeps.
Qed.

Lemma check_keeps fn w :
  checkFn (this (exec (check fn) w)) = Some fn /\
  inflight (host (exec (check fn) w)) = inflight (host w).
Proof.
  rewrite exec_check. cbn zeta.
  set (w0 := mkWorld (set_checkFn (Some fn) (this w)) (host w)).
  assert (checkFn (this (exec notifyListeners w0)) = Some fn /\
          inflight (host (exec notifyListeners w0)) = inflight (host w))
    as [Hfn Hin].
  { by destruct (exec_notifyListeners w0) as (data & _ & ->). }
  destruct (outcome notifyListeners w0); [|done].
  destruct (scheduleNext_keeps (exec notifyListeners w0)) as [-> ->]. done.
Qed.

(** With the probe installed, the timer's callback calls it and does
    nothing else. *)
Lemma exec_fire_installed t fn w :
  checkFn (this w) = Some fn ->
  exec (fire t) w =
  mkWorld (this w)
    (emit (ProbeCall fn)
       (set_inflight (S (inflight (host w))) (disarm t (host w)))).
Proof.
  intros Hfn. unfold fire. js. rewrite exec_runCheck_call. cbn [this].
  by rewrite Hfn.
Qed.

Lemma installed_step a w w' :
  (checkFn (this w) = None ->
   pending (host w) = [] /\ inflight (host w) = 0%nat) ->
  step a w = Some w' ->
  checkFn (this w') = None ->
  pending (host w') = [] /\ inflight (host w') = 0%nat.
Proof.
  intros Hinv Hstep.
  destruct (decide (isCheck a = true)) as [Hcheck|Hcheck].
  - destruct a; try done. unfold step in Hstep. cbn in Hstep.
    injection Hstep as <-. destruct (check_keeps fn w) as [-> _]. done.
  - apply not_true_is_false in Hcheck. intros Hnone.
    assert (checkFn (this w) = None) as Hw.
    { unfold step in Hstep. destruct (enabled a w) eqn:Hen; [|done].
      injection Hstep as <-.
      destruct a as [fn|st l| |minutes| |t|o]; cbn [perform] in *.
      - discriminate Hcheck.
      - by rewrite exec_on in Hnone.
      - rewrite exec_stop in Hnone. by destruct (timer (this w)).
      - destruct (exec_getters w) as [Heq _]. by rewrite Heq in Hnone.
      - destruct (exec_getters w) as [_ Heq]. by rewrite Heq in Hnone.
      - destruct (checkFn (this w)) as [fn|] eqn:Hfn; [|done].
        rewrite (exec_fire_installed t fn w Hfn) in Hnone. cbn in Hnone.
        congruence.
      - unfold settle in Hnone. rewrite exec_bind, outcome_onHost in Hnone.
        destruct (runCheck_resume_keeps o
                    (exec (onHost (fun h => set_inflight (pred (inflight h)) h)) w))
          as [Heq _].
        by rewrite Heq in Hnone. }
    destruct (Hinv Hw) as [Hp Hi].
    by destruct (idle_step a w w' Hp Hi Hcheck Hstep) as (? & ? & _).
Qed.

(** X13.  In every reachable state a timer is armed or a probe is in
    flight only if a probe function is installed.  So when the timer
    fires, its callback calls the probe and does nothing else: the error
    "Check function is not defined" is never raised. *)
Theorem probe_always_installed c cfg (w : World) :
  Reachable c cfg w ->
  (pending (host w) <> [] \/ (0 < inflight (host w))%nat ->
   is_Some (checkFn (this w))) /\
  (forall t,
     enabled (TimerFires t) w = true ->
     exists fn,
       checkFn (this w) = Some fn /\
       exec (perform (TimerFires t)) w =
       mkWorld (this w)
         (emit (ProbeCall fn)
            (set_inflight (S (inflight (host w))) (disarm t (host w))))).
Proof.
  intros Hw.
  assert (checkFn (this w) = None ->
          pending (host w) = [] /\ inflight (host w) = 0%nat) as Hinv.
  { induction Hw as [|w a w' _ IH Hstep]; [done|].
    by apply (installed_step a w w'). }
  assert (pending (host w) <> [] \/ (0 < inflight (host w))%nat ->
          is_Some (checkFn (this w))) as Hsome.
  { intros Hbusy. destruct (checkFn (this w)) eqn:Hfn; [by eexists|].
    destruct (Hinv eq_refl) as [Hp Hi]. destruct Hbusy; [done|lia]. }
  split; [done|]. intros t Hen. cbn in Hen.
  apply bool_decide_eq_true_1 in Hen.
  destruct Hsome as [fn Hfn].
  { left. intros Hp. rewrite Hp in Hen. by apply elem_of_nil in Hen. }
  exists fn. split; [done|]. by apply exec_fire_installed.
Qed.

Lemma single_flight_step a w w' :
  Consistent w ->
  (inflight (host w) + length (pending (host w)) <= 1)%nat ->
  (isCheck a = true -> inflight (host w) = 0%nat) ->
  step a w = Some w' ->
  (inflight (host w') + length (pending (host w')) <= 1)%nat.
Proof.
  intros Hw Hone Hidle Hstep.
  pose proof (Consistent_step a w w' Hw Hstep) as Hw'.
  assert (length (pending (host w')) <= 1)%nat as Hp'.
  { destruct (one_timer w' Hw') as [->|(t & d & -> & _)]; cbn; lia. }
  unfold step in Hstep. destruct (enabled a w) eqn:Hen; [|done].
  injection Hstep as <-.
  destruct a as [fn|st l| |minutes| |t|o]; cbn [perform] in *.
  - destruct (check_keeps fn w) as [_ Hin]. rewrite Hin, Hidle by done. lia.
  - by rewrite exec_on.
  - rewrite exec_stop. destruct (timer (this w)); [|done]. cbn.
    pose proof (length_filter (fun p : TimerId * Z => p.1 <> t) (pending (host w))).
    lia.
  - by destruct (exec_getters w) as [-> _].
  - by destruct (exec_getters w) as [_ ->].
  - cbn in Hen. apply bool_decide_eq_true_1 in Hen.
    assert (inflight (host w) = 0%nat) as Hi.
    { destruct (pending (host w)); [by apply elem_of_nil in Hen|].
      cbn in Hone. lia. }
    destruct (checkFn (this w)) as [fn|] eqn:Hfn.
    + rewrite (exec_fire_installed t fn w Hfn) in *. cbn in *.
      destruct (one_timer w Hw) as [Hp|(t0 & d & Hp & _)]; rewrite Hp in *.
      * by apply elem_of_nil in Hen.
      * cbn in Hen. apply list_elem_of_singleton in Hen as ->.
        rewrite filter_cons, decide_False by (intros Hne; by apply Hne).
        cbn. lia.
    + unfold fire in *. rewrite exec_bind, outcome_onHost in *.
      rewrite exec_runCheck_call in *. cbn [this exec_onHost] in *.
      rewrite exec_onHost in *. cbn [this] in *. rewrite Hfn in *.
      destruct (handleError_keeps (NewError "Check function is not defined")
                  (mkWorld (this w) (disarm t (host w)))) as [_ Hin].
      rewrite Hin. cbn. lia.
  - cbn in Hen. apply bool_decide_eq_true_1 in Hen.
    unfold settle in *. rewrite exec_bind, outcome_onHost in *.
    rewrite exec_onHost in *.
    destruct (runCheck_resume_keeps o
                (mkWorld (this w)
                   (set_inflight (pred (inflight (host w))) (host w))))
      as [_ Hin].
    rewrite Hin. cbn. lia.
Qed.

Lemma single_flight_run actions w w' :
  Consistent w ->
  (inflight (host w) + length (pending (host w)) <= 1)%nat ->
  checksWhenIdle actions w = Some true ->
  run actions w = Some w' ->
  (inflight (host w') + length (pending (host w')) <= 1)%nat.
Proof.
  revert w. induction actions as [|a actions IH]; intros w Hw Hone Hidle Hrun.
  - by injection Hrun as <-.
  - cbn in Hidle, Hrun. destruct (step a w) as [w1|] eqn:Hstep; [|done].
    destruct (isCheck a && negb (inflight (host w) =? 0)%nat) eqn:Hbad;
      [done|].
    apply (IH w1); try done.
    + by apply (Consistent_step a w).
    + apply (single_flight_step a w); try done.
      intros Ha. rewrite Ha in Hbad. cbn in Hbad.
      apply negb_false_iff in Hbad. by apply Nat.eqb_eq in Hbad.
Qed.

(** X14.  Probes do not overlap as long as [check] is not called while a
    probe is in flight: after any such series of actions on a new
    monitor at most one probe is in flight, and no timer is armed while
    one is. *)
Theorem probes_never_overlap c cfg (actions : list Action) (w : World) :
  run actions (new c cfg) = Some w ->
  checksWhenIdle actions (new c cfg) = Some true ->
  (inflight (host w) <= 1)%nat /\
  ((0 < inflight (host w))%nat -> pending (host w) = []).
Proof.
  intros Hrun Hidle.
  assert (inflight (host w) + length (pending (host w)) <= 1)%nat as Hone.
  { apply (single_flight_run actions (new c cfg)); try done.
    - apply Consistent_new.
    - cbn. lia. }
  split; [lia|]. intros Hbusy.
  destruct (pending (host w)); [done|]. cbn in Hone. lia.
Qed.

(** ** The React binding *)

Lemma exec_settle o w :
  exec (settle o) w =
  exec (runCheck_resume o)
    (mkWorld (this w) (set_inflight (pred (inflight (host w))) (host w))).
Proof. unfold settle. by js. Qed.

(** The listeners an update calls depend on the instance and on the
    clock only. *)
Lemma notified_frame b w w' :
  this w' = this w -> nextNow w' = nextNow w -> notified b w' = notified b w.
Proof.
  intros Hthis Hnow. unfold notified, registered. rewrite !settled_this.
  cbn zeta. destruct b; rewrite ?countResult_success, ?countResult_failure;
    cbn zeta; cbn [this]; by rewrite Hthis, Hnow.
Qed.

Lemma statusCalls_emits es w :
  statusCalls (mkWorld (this w) (emits es (host w))) =
  statusCalls w ++
  omap (fun e => match e with
                 | StatusCall l data => Some (l_name l, ev_status data)
                 | _ => None
                 end) es.
Proof. unfold statusCalls. cbn. by rewrite omap_app. Qed.

Lemma statusCalls_updateStatus b w :
  Forall returns (notified b w) ->
  statusCalls (exec (updateStatus b) w) =
  statusCalls w ++
  map (fun l => (l_name l, currentStatus (this (exec (updateStatus b) w))))
    (notified b w).
Proof.
  unfold notified. rewrite updateStatus_this, exec_updateStatus. cbn zeta.
  case_decide as Hnew.
  - intros Hls.
    destruct (exec_notifyListeners (settled b w)) as (data & Hdata & ->).
    destruct (outcome_createEventData (settled b w))
      as (data' & Hdata' & Hst & _).
    rewrite Hdata in Hdata'. injection Hdata' as <-.
    rewrite registered_settled, called_all by done.
    unfold statusCalls. cbn [host tick log emits set_ticks].
    rewrite settled_host, omap_app. cbn [host tick log set_ticks]. f_equal.
    clear Hls. induction (registered _ w) as [|l ls IH]; [done|].
    cbn. by rewrite IH, Hst.
  - intros _. unfold statusCalls. rewrite settled_host. cbn.
    by rewrite app_nil_r.
Qed.

Lemma statusCalls_scheduleNext w :
  statusCalls (exec scheduleNext w) = statusCalls w.
Proof.
  rewrite exec_scheduleNext. unfold statusCalls, cleared. cbn.
  destruct (timer (this w)); cbn; rewrite !omap_app; cbn;
    by rewrite ?app_nil_r.
Qed.

(** A probe cycle whose listeners return: the calls it makes to status
    listeners and the timer it leaves. *)
Lemma runCheck_resume_returns o w :
  Consistent w ->
  let b := match o with Resolved r => r | Rejected _ => false end in
  let st' := currentStatus (this (exec (updateStatus b) w)) in
  let w' := exec (runCheck_resume o) w in
  Forall returns (notified b w) ->
  timer (this w') = Some (nextTimer (host w)) /\
  pending (host w') =
    [(nextTimer (host w), intervalOf (intervals (this w)) st')] /\
  statusCalls w' =
    statusCalls w ++ map (fun l => (l_name l, st')) (notified b w).
Proof.
  intros Hw. cbn zeta.
  set (b := match o with Resolved r => r | Rejected _ => false end) in *.
  intros Hls.
  pose proof (Consistent_updateStatus b w Hw) as Hw1.
  pose proof (outcome_updateStatus_notified b w Hls) as Hup.
  pose proof (statusCalls_updateStatus b w Hls) as Hcalls.
  destruct (scheduleNext_pending _ Hw1) as [Hp Ht].
  assert (nextDelay (exec (updateStatus b) w) =
          intervalOf (intervals (this w))
            (currentStatus (this (exec (updateStatus b) w)))) as Hd.
  { unfold nextDelay.
    rewrite updateStatus_intervals, intervalStatus_known; [done|].
    apply (status_known _ Hw1). }
  rewrite updateStatus_nextTimer, Hd in *.
  destruct o as [r|v]; subst b.
  - rewrite exec_runCheck_resolved, Hup.
    by rewrite statusCalls_scheduleNext.
  - rewrite exec_runCheck_rejected, exec_handleError, Hup. cbn zeta.
    rewrite statusCalls_emits, statusCalls_scheduleNext, Hcalls.
    cbn [this host pending emits]. split; [done|]. split; [done|].
    induction (called (registered error w)) as [|l ls IH]; cbn;
      by rewrite ?app_nil_r.
Qed.

(** X15.  The effect of [usePeriodicCheck] calls [check] before it
    registers its listeners, so the notification [check] makes reaches
    no listener.  When the effect has run, the probe is installed, one
    timer is armed with the healthy delay, [updateStates] is the one
    listener under healthy, suspect and unhealthy, and the logger the
    one under error.  The cleanup, whatever has happened since the
    effect, leaves no timer armed, calls no listener and removes none.
    It does not end the monitor when a probe is in flight, as there is
    one as soon as the first timer has fired: when that probe settles,
    and the listeners it notifies return, the listeners of the new status
    are called as ever ([updateStates] sets the state of a component that
    has unmounted) and a timer is armed again. *)
Theorem usePeriodicCheck_effect c cfg (checkFn0 : CheckFunction) :
  (exists w,
     run (mountEffect checkFn0) (new c cfg) = Some w /\
     log (host w) = [TimerSet 1%nat (cfg_healthy cfg)] /\
     pending (host w) = [(1%nat, cfg_healthy cfg)] /\
     checkFn (this w) = Some checkFn0 /\
     (registered healthy w, registered suspect w, registered unhealthy w,
      registered error w) =
     ([updateStates], [updateStates], [updateStates], [logError])) /\
  (forall actions w,
     run (mountEffect checkFn0 ++ actions) (new c cfg) = Some w ->
     exists w',
       run cleanupEffect w = Some w' /\
       pending (host w') = [] /\
       timer (this w') = None /\
       statusCalls w' = statusCalls w /\
       listeners (this w') = listeners (this w)) /\
  (forall actions o w' w'',
     run (mountEffect checkFn0 ++ actions ++ cleanupEffect) (new c cfg)
     = Some w' ->
     run [ProbeSettles o] w' = Some w'' ->
     let b := match o with Resolved r => r | Rejected _ => false end in
     Forall returns (notified b w') ->
     timer (this w'') = Some (nextTimer (host w')) /\
     pending (host w'') =
       [(nextTimer (host w'),
         intervalOf (intervals (this w')) (currentStatus (this w'')))] /\
     statusCalls w'' =
       statusCalls w' ++
       map (fun l => (l_name l, currentStatus (this w''))) (notified b w')) /\
  (exists w',
     run (mountEffect checkFn0 ++ [TimerFires 1%nat] ++ cleanupEffect)
       (new c cfg) = Some w' /\
     pending (host w') = [] /\
     forall o, is_Some (run [ProbeSettles o] w')).
Proof.
  split; [|split; [|split]].
  - eexists. split; [reflexivity|]. cbn. repeat split; reflexivity.
  - intros actions w Hrun.
    apply (Reachable_run c cfg _ _ _ (Reachable_new c cfg)) in Hrun.
    apply Reachable_Consistent in Hrun.
    exists (exec stop w). split; [done|].
    destruct (stop_pending w Hrun) as [Hp Ht].
    split; [done|]. split; [done|].
    rewrite exec_stop. destruct (timer (this w)) as [id|]; [|done].
    split; [|done]. unfold statusCalls. cbn. rewrite omap_app. cbn.
    by rewrite app_nil_r.
  - intros actions o w' w'' Hrun Hsettle. cbn zeta. intros Hls.
    apply (Reachable_run c cfg _ _ _ (Reachable_new c cfg)) in Hrun.
    apply Reachable_Consistent in Hrun.
    cbn in Hsettle. unfold step in Hsettle.
    destruct (enabled (ProbeSettles o) w'); [|done].
    injection Hsettle as <-. cbn [perform]. rewrite exec_settle.
    set (w0 := mkWorld (this w')
                 (set_inflight (pred (inflight (host w'))) (host w'))).
    assert (Consistent w0) as Hw0 by (by apply (Consistent_frame w')).
    assert (notified
              match o with Resolved r => r | Rejected _ => false end w0
            = notified
                match o with Resolved r => r | Rejected _ => false end w')
      as Hn by (by apply notified_frame).
    rewrite <- Hn in Hls.
    destruct (runCheck_resume_returns o w0 Hw0 Hls) as (Ht & Hp & Hcalls).
    assert (currentStatus (this (exec (runCheck_resume o) w0)) =
            currentStatus
              (this (exec (updateStatus
                             match o with
                             | Resolved r => r
                             | Rejected _ => false
                             end) w0))) as Hst.
    { pose proof (outcome_updateStatus_notified _ w0 Hls) as Hup.
      destruct o as [r|v].
      - rewrite exec_runCheck_resolved, Hup. by rewrite exec_scheduleNext.
      - rewrite exec_runCheck_rejected, exec_handleError, Hup. cbn zeta.
        cbn [this]. by rewrite exec_scheduleNext. }
    rewrite Hst, Hn in *. done.
  - assert (match run (mountEffect checkFn0 ++ [TimerFires 1%nat]
                         ++ cleanupEffect) (new c cfg) with
            | Some w' => pending (host w') = [] /\ inflight (host w') = 1%nat
            | None => False
            end) as Hrun.
    { vm_compute. split; reflexivity. }
    destruct (run _ (new c cfg)) as [w'|]; [|done].
    destruct Hrun as [Hp Hi].
    exists w'. split; [done|]. split; [done|].
    intros o. cbn [run]. unfold step. cbn [enabled]. rewrite Hi. by eexists.
Qed.

(** The cleanup on the sample monitor while its first probe is in
    flight: the probe then fails, [updateStates] is called with the new
    status and a timer is armed with the suspect delay. *)
Example scenario_cleanup_with_probe_in_flight :
  (fun w => (statusCalls w, pending (host w))) <$>
    run (mountEffect 7%nat ++ [TimerFires 1%nat] ++ cleanupEffect ++
         [ProbeSettles (Resolved false)])
      (new sampleClock sampleConfig)
  = Some ([(0%nat, suspect)], [(2%nat, 500)]).
Proof. by vm_compute. Qed.

(** ** The transitions one update can make *)

(** X16.  One update changes the status only along five edges: a failure
    takes healthy to suspect or to unhealthy and suspect to unhealthy, a
    success takes suspect or unhealthy to healthy.  So a failure never
    improves the status, a success never worsens it, unhealthy never
    turns into suspect, and no update leads to error. *)
Theorem updateStatus_transitions (w : World) (b : bool) :
  let s := currentStatus (this w) in
  let s' := currentStatus (this (exec (updateStatus b) w)) in
  s' = s \/
  (b = false /\ s = healthy /\ (s' = suspect \/ s' = unhealthy)) \/
  (b = false /\ s = suspect /\ s' = unhealthy) \/
  (b = true /\ (s = suspect \/ s = unhealthy \/ s = error) /\ s' = healthy).
Proof.
  cbn zeta. destruct b.
  - destruct (updateStatus_success w) as (_ & _ & ->).
    case_decide; [|by left].
    destruct (currentStatus (this w)); [by left|right; right; right..]; eauto.
  - destruct (updateStatus_failed w) as (_ & Hrise & Hstay).
    destruct (currentStatus (this w)) eqn:E.
    + destruct Hrise as [_ ->]; [by left|]. right. left.
      case_decide; eauto.
    + destruct Hrise as [_ ->]; [by right|].
      case_decide; [|by left]. right. right. left. eauto.
    + destruct Hstay as [_ ->]; [done|]. by left.
    + left. after_update. rewrite E. by repeat case_decide.
Qed.

(** ** The streak *)

Lemma trailingStreak_bounds h :
  h <> [] -> 1 <= trailingStreak h <= Z.of_nat (length h).
Proof.
  intros Hh. unfold trailingStreak.
  destruct h as [|e0 h0] using rev_ind; [done|]. clear IHh0.
  rewrite reverse_snoc, length_app. cbn.
  assert (length (leading (hasStatus (h_status e0)) (reverse h0))
          <= length h0)%nat; [|lia].
  rewrite <- (length_reverse h0).
  generalize (reverse h0). intros l. induction l as [|x l IH]; [done|].
  cbn. destruct (hasStatus _ x); cbn; lia.
Qed.

(** X17.  In every reachable state the latest history entry carries the
    current status, so the streak is a streak of the current status; and
    [getMetrics().currentStreak] lies between 1 and 100. *)
Theorem currentStreak_bounds c cfg (w : World) :
  Reachable c cfg w ->
  (forall e, last (history (this w)) = Some e ->
             h_status e = currentStatus (this w)) /\
  exists m, outcome getMetrics w = Ok m /\ 1 <= currentStreak m <= 100.
Proof.
  intros Hw. split.
  - revert w Hw.
    apply (Reachable_by_moves
             (fun w => forall e, last (history (this w)) = Some e ->
                                 h_status e = currentStatus (this w)));
      [done|].
    intros w w' Hlast Hmove.
    destruct (Move_core w w' Hmove) as [Hcore|[b ->]].
    + apply core_fields in Hcore as (-> & _ & _ & -> & _). done.
    + rewrite settled_core, updateStatus_appends. cbn zeta.
      intros e. case_decide as Hfull.
      * rewrite length_app in Hfull. cbn in Hfull.
        rewrite drop_app_le by lia.
        rewrite last_snoc. by intros [= <-].
      * rewrite last_snoc. by intros [= <-].
  - pose proof (history_capped w (Reachable_Consistent _ _ _ Hw)) as Hcap.
    rewrite outcome_getMetrics. cbn zeta.
    destruct (decide _) as [Hlen|Hlen]; eexists; (split; [done|]); cbn;
      [lia|].
    assert (history (this w) <> []) as Hne.
    { intros Hnil. by rewrite Hnil in Hlen. }
    pose proof (trailingStreak_bounds _ Hne). lia.
Qed.

(** * Samples of the further properties *)

Lemma monotone_sampleClock : monotone sampleClock.
Proof. intros i j Hij. unfold sampleClock. lia. Qed.

(** A sample of X1: with the default threshold 3, two failures leave a new
    monitor suspect and three make it unhealthy. *)
Lemma failures_escalate_sample :
  let w := new sampleClock sampleConfig in
  (0 < 3)%nat /\
  (currentStatus (this w) = healthy \/ currentStatus (this w) = suspect) /\
  currentStatus (this (failures 2 w)) = suspect /\
  currentStatus (this (failures 3 w)) = unhealthy.
Proof.
  cbn zeta. split; [lia|]. split; [by left|]. split.
  - destruct (failures_escalate (new sampleClock sampleConfig) 2)
      as (_ & -> & _); [lia|by left|]. by vm_compute.
  - destruct (failures_escalate (new sampleClock sampleConfig) 3)
      as (_ & -> & _); [lia|by left|]. by vm_compute.
Defined.

(** A sample of X3: a second [check] replaces the timer of the first. *)
Lemma at_most_one_timer_sample :
  let w := after [Check 7%nat; Check 8%nat] in
  Reachable sampleClock sampleConfig w /\
  (length (pending (host w)) <= 1)%nat /\
  timer (this w) = Some 2%nat.
Proof.
  cbn zeta.
  assert (Reachable sampleClock sampleConfig
            (after [Check 7%nat; Check 8%nat])) as Hw.
  { apply Reachable_after. vm_compute. eauto. }
  split; [exact Hw|].
  destruct (at_most_one_timer _ _ _ Hw) as [Hlen Hheld].
  split; [exact Hlen|]. apply (Hheld 2%nat 1000). vm_compute. by left.
Defined.

(** A sample of X4: a further failure of an unhealthy monitor.  The
    status stays, the listener under unhealthy, which would throw, is not
    called, and the timer is armed with the unhealthy delay. *)
Lemma probe_cycle_reschedules_sample :
  let w := after failing in
  Reachable sampleClock sampleConfig w /\
  Forall returns (notified false w) /\
  map l_raises (registered unhealthy w) = [Some (ThrownOther 0)] /\
  pending (host (exec (runCheck_resume (Resolved false)) w))
  = [(5%nat, 2000)].
Proof.
  cbn zeta.
  assert (Reachable sampleClock sampleConfig (after failing)) as Hw.
  { apply Reachable_after. vm_compute. eauto. }
  assert (Forall returns (notified false (after failing))) as Hls.
  { vm_compute. constructor. }
  split; [exact Hw|]. split; [exact Hls|]. split; [by vm_compute|].
  destruct (probe_cycle_reschedules _ _ _ (Resolved false) Hw Hls)
    as (_ & _ & ->). by vm_compute.
Defined.

(** A sample of X5: [check] on a monitor with a listener under healthy. *)
Lemma check_starts_sample :
  let w := after [On healthy (quiet 3)] in
  Reachable sampleClock sampleConfig w /\
  Forall returns (registered healthy w) /\
  checkFn (this (exec (check 7%nat) w)) = Some 7%nat /\
  pending (host (exec (check 7%nat) w)) = [(1%nat, 1000)].
Proof.
  cbn zeta.
  assert (Reachable sampleClock sampleConfig (after [On healthy (quiet 3)]))
    as Hw.
  { apply Reachable_after. vm_compute. eauto. }
  assert (Forall returns (registered healthy (after [On healthy (quiet 3)])))
    as Hls.
  { vm_compute. repeat constructor. }
  split; [exact Hw|]. split; [exact Hls|].
  destruct (check_starts _ _ _ 7%nat Hw Hls) as (_ & Hfn & _ & _ & Hp & _).
  split; [exact Hfn|]. rewrite Hp. by vm_compute.
Defined.

(** A sample of X9: a monitor after a failure and a success. *)
Lemma history_never_error_sample :
  let w := after (Check 7%nat :: cycles 1 [false; true]) in
  Reachable sampleClock sampleConfig w /\
  Forall (fun e => h_status e <> error) (history (this w)).
Proof.
  cbn zeta.
  assert (Reachable sampleClock sampleConfig
            (after (Check 7%nat :: cycles 1 [false; true]))) as Hw.
  { apply Reachable_after. vm_compute. eauto. }
  split; [exact Hw|]. apply (history_never_error _ _ _ Hw).
Defined.


(** A sample of X11: the same monitor under the sample clock. *)
Lemma history_chronological_sample :
  let w := after (Check 7%nat :: cycles 1 [false; true]) in
  monotone sampleClock /\
  Reachable sampleClock sampleConfig w /\
  map h_timestamp (history (this w)) = [2000; 5000] /\
  chronological (history (this w)).
Proof.
  cbn zeta.
  assert (Reachable sampleClock sampleConfig
            (after (Check 7%nat :: cycles 1 [false; true]))) as Hw.
  { apply Reachable_after. vm_compute. eauto. }
  split; [exact monotone_sampleClock|]. split; [exact Hw|].
  split; [by vm_compute|].
  apply (history_chronological _ _ _ monotone_sampleClock Hw).
Defined.

(** A sample of X17: the same monitor; its latest entry is suspect. *)
Lemma currentStreak_bounds_sample :
  let w := after (Check 7%nat :: cycles 1 [false; true]) in
  Reachable sampleClock sampleConfig w /\
  currentStatus (this w) = suspect /\
  forall e, last (history (this w)) = Some e -> h_status e = suspect.
Proof.
  cbn zeta.
  assert (Reachable sampleClock sampleConfig
            (after (Check 7%nat :: cycles 1 [false; true]))) as Hw.
  { apply Reachable_after. vm_compute. eauto. }
  split; [exact Hw|]. split; [by vm_compute|].
  apply (currentStreak_bounds _ _ _ Hw).
Defined.

(** A sample of X12: a rejected probe on the sample monitor. *)
Lemma listeners_called_for_their_key_sample :
  let w := after (probing ++ [ProbeSettles (Rejected (ThrownOther 0))]) in
  Reachable sampleClock sampleConfig w /\
  (statusCalls w, errorCalls w) =
  ([(1%nat, suspect)], [(2%nat, NewError "Unknown error")]) /\
  forall l e, ErrorCall l e ∈ log (host w) -> l ∈ registered error w.
Proof.
  cbn zeta.
  assert (Reachable sampleClock sampleConfig
            (after (probing ++ [ProbeSettles (Rejected (ThrownOther 0))])))
    as Hw.
  { apply Reachable_after. vm_compute. eauto. }
  split; [exact Hw|]. split; [by vm_compute|].
  apply (listeners_called_for_their_key _ _ _ Hw).
Defined.

(** A sample of X13: a started monitor. *)
Lemma probe_always_installed_sample :
  let w := after [Check 7%nat] in
  Reachable sampleClock sampleConfig w /\
  pending (host w) = [(1%nat, 1000)] /\
  (pending (host w) <> [] \/ (0 < inflight (host w))%nat ->
   is_Some (checkFn (this w))).
Proof.
  cbn zeta.
  assert (Reachable sampleClock sampleConfig (after [Check 7%nat])) as Hw.
  { apply Reachable_after. vm_compute. eauto. }
  split; [exact Hw|]. split; [by vm_compute|].
  apply (probe_always_installed _ _ _ Hw).
Defined.

(** A sample of X14: two probe cycles, with a [stop] and a second [check]
    between them. *)
Lemma probes_never_overlap_sample :
  let actions :=
    Check 7%nat :: cycles 1 [true] ++ [Stop; Check 8%nat] ++ cycles 3 [false] in
  run actions (new sampleClock sampleConfig) = Some (after actions) /\
  checksWhenIdle actions (new sampleClock sampleConfig) = Some true /\
  (inflight (host (after actions)) <= 1)%nat.
Proof.
  cbn zeta.
  assert (run (Check 7%nat :: cycles 1 [true] ++ [Stop; Check 8%nat]
                 ++ cycles 3 [false]) (new sampleClock sampleConfig)
          = Some (after (Check 7%nat :: cycles 1 [true] ++ [Stop; Check 8%nat]
                           ++ cycles 3 [false]))) as Hrun by (by vm_compute).
  assert (checksWhenIdle (Check 7%nat :: cycles 1 [true]
                            ++ [Stop; Check 8%nat] ++ cycles 3 [false])
            (new sampleClock sampleConfig) = Some true) as Hidle
    by (by vm_compute).
  split; [exact Hrun|]. split; [exact Hidle|].
  apply (probes_never_overlap _ _ _ _ Hrun Hidle).
Defined.

(** * The thresholds of the configuration *)

Lemma successes_run w k :
  (0 < k)%nat ->
  healthyCount (this (successes k w)) = healthyCount (this w) + Z.of_nat k /\
  currentStatus (this (successes k w)) =
    if decide (minHealthyCount (intervals (this w))
                 <= healthyCount (this w) + Z.of_nat k)
    then healthy else currentStatus (this w).
Proof.
  induction k as [|k IH]; [lia|]. intros _. rewrite successes_S.
  destruct (updateStatus_success (successes k w)) as (-> & _ & ->).
  rewrite successes_intervals. destruct k as [|k].
  - cbn [successes]. split; [lia|]. repeat case_decide; lia || done.
  - destruct IH as (-> & ->); [lia|]. split; [lia|].
    repeat case_decide; lia || done.
Qed.

Lemma failures_run w n :
  (0 < n)%nat ->
  currentStatus (this w) = healthy ->
  suspectCount (this w) = 0 ->
  healthyCount (this (failures n w)) = 0 /\
  (if decide (maxSuspectCount (intervals (this w)) <= Z.of_nat n)
   then currentStatus (this (failures n w)) = unhealthy
   else currentStatus (this (failures n w)) = suspect /\
        suspectCount (this (failures n w)) = Z.of_nat n).
Proof.
  intros Hn Hst Hsc. induction n as [|n IH]; [lia|]. clear Hn.
  rewrite failures_S.
  destruct (updateStatus_failed (failures n w)) as (Hhc & Hrise & Hstay).
  rewrite failures_intervals in *. split; [done|]. destruct n as [|n].
  - cbn [failures] in *. destruct Hrise as [Hsc' Hnew]; [by left|].
    rewrite Hnew, Hsc', Hsc. repeat case_decide; try lia; done.
  - destruct IH as (_ & IH); [lia|].
    destruct (decide (maxSuspectCount (intervals (this w)) <= Z.of_nat (S n)))
      as [Hle|Hgt].
    + destruct (Hstay IH) as [_ Hnew]. rewrite decide_True by lia. done.
    + destruct IH as [IHst IHsc].
      destruct Hrise as [Hsc' Hnew]; [by right|].
      rewrite Hnew, Hsc', IHsc. repeat case_decide; try lia; split; lia || done.
Qed.

(** X18.  For an object whose thresholds are absent or numbers (not
    present with the value [undefined]), the thresholds of the new
    monitor are what the spread over the defaults yields: the numbers of
    the object, and 3 and 2 where the object has none.  The monitor turns
    unhealthy at its [maxSuspectCount]-th failure in a row and is suspect
    before, and after failures it is healthy again at the
    [minHealthyCount]-th success in a row and not before. *)
Theorem thresholds_apply c (obj : ConfigObject) (cfg : IntervalConfig)
    (n k : nat) :
  numeric obj = Some cfg ->
  (0 < n)%nat ->
  (0 < k)%nat ->
  exists max min,
    spread 3 (obj_maxSuspectCount obj) = Some max /\
    spread 2 (obj_minHealthyCount obj) = Some min /\
    let failed := failures n (new c cfg) in
    currentStatus (this failed) =
      (if decide (max <= Z.of_nat n) then unhealthy else suspect) /\
    currentStatus (this (successes k failed)) =
      (if decide (min <= Z.of_nat k) then healthy
       else currentStatus (this failed)).
Proof.
  intros Hobj Hn Hk.
  exists (default 3 (cfg_maxSuspectCount cfg)),
    (default 2 (cfg_minHealthyCount cfg)).
  assert (spread 3 (obj_maxSuspectCount obj)
          = Some (default 3 (cfg_maxSuspectCount cfg)) /\
          spread 2 (obj_minHealthyCount obj)
          = Some (default 2 (cfg_minHealthyCount cfg))) as [Hmax Hmin].
  { unfold numeric in Hobj.
    destruct (obj_maxSuspectCount obj), (obj_minHealthyCount obj);
      try discriminate Hobj; by injection Hobj as <-. }
  split; [done|]. split; [done|]. cbn zeta.
  destruct (failures_run (new c cfg) n Hn eq_refl eq_refl) as [Hhc Hst].
  destruct (successes_run (failures n (new c cfg)) k Hk) as [_ ->].
  rewrite failures_intervals, Hhc. cbn [new this constructor intervals
    maxSuspectCount minHealthyCount] in *.
  unfold DEFAULT_maxSuspectCount, DEFAULT_minHealthyCount in *.
  split; [|by rewrite Z.add_0_l].
  case_decide; [done|]. by destruct Hst.
Qed.

(** A sample of X18: an object that gives [maxSuspectCount: 2] and leaves
    [minHealthyCount] out.  Two failures make the monitor unhealthy, two
    successes make it healthy again. *)
Lemma thresholds_apply_sample :
  let cfg := mkIntervalConfig 1000 500 2000 (Some 2) None in
  let failed := failures 2 (new sampleClock cfg) in
  numeric strictObject = Some cfg /\
  (0 < 2)%nat /\
  currentStatus (this failed) = unhealthy /\
  currentStatus (this (successes 2 failed)) = healthy.
Proof.
  cbn zeta. split; [reflexivity|]. split; [lia|].
  destruct (thresholds_apply sampleClock strictObject
              (mkIntervalConfig 1000 500 2000 (Some 2) None) 2 2 eq_refl)
    as (max & min & Hmax & Hmin & -> & ->); [lia|lia|].
  injection Hmax as <-. injection Hmin as <-. by vm_compute.
Defined.
